(** * iPXE scripts: a shallow embedding of [src/image/script.c]

    The file follows the C source function by function.  The two file-scope
    statics [script] and [script_offset] (the execution cursor) and the
    closure variable [goto_label] become fields of an explicit [state]
    that every function threads; everything the C file only calls
    (the image registry, the console, the option parser, the errno numbers,
    the width of [size_t]) is gathered in the [Platform] interface.

    A computation returns [option (result * state)]: [None] stands for a call
    that yields no result (an external command that never returns, a walk
    that is still looping when its fuel is spent, or a read through a NULL
    pointer). *)

From Stdlib Require Import String ZArith List Lia Bool.
From Stdlib.Strings Require Import Byte.
Import ListNotations.

Local Open Scope Z_scope.

(* ------------------------------------------------------------------ *)
(** ** Bytes and C strings *)

Definition NUL : byte := x00.
Definition NL : byte := x0a.
Definition COLON : byte := x3a.
Definition DQUOTE : byte := x22.

(** The bytes of a string literal, without terminator. *)
Definition bytes (s : string) : list byte := list_byte_of_string s.

(** A C string literal as the array the compiler lays out: the characters
    followed by the terminating NUL, so that [sizeof] counts the NUL. *)
Definition c_literal (s : string) : list byte := bytes s ++ [NUL].

Definition sizeof (a : list byte) : Z := Z.of_nat (length a).

(** The numeric value of a [char] read as [unsigned char]. *)
Definition byte_val (b : byte) : Z := Z.of_N (Byte.to_N b).

(** [buf[i]]; a read beyond the array is never performed by the code below
    and reads as NUL here. *)
Definition char_at (buf : list byte) (i : nat) : byte := nth i buf NUL.

(** The text a [const char *] denotes: the bytes before the first NUL. *)
Fixpoint cstr (buf : list byte) : list byte :=
  match buf with
  | [] => []
  | b :: r => if Byte.eqb b NUL then [] else b :: cstr r
  end.

(** Modelled from the spec: [memcmp] of the C library (string.h is not part
    of the sources at hand): compares the first [n] bytes of two buffers and
    is zero exactly when they are equal; a buffer that ends early compares
    as different from a longer one. *)
Fixpoint memcmp (a b : list byte) (n : nat) {struct n} : Z :=
  match n with
  | O => 0
  | S n' =>
      match a, b with
      | x :: a', y :: b' =>
          if Byte.eqb x y then memcmp a' b' n' else byte_val x - byte_val y
      | [], [] => 0
      | [], _ :: _ => -1
      | _ :: _, [] => 1
      end
  end.

(** Modelled from the spec: [strcmp] of the C library (string.h is not part
    of the sources at hand): compares two NUL-terminated strings byte by
    byte and is zero exactly when their texts are equal ("compared for exact
    equality").  The end of a buffer reads as the terminator. *)
Fixpoint strcmp (s1 s2 : list byte) : Z :=
  match s1, s2 with
  | [], [] => 0
  | [], c2 :: _ => byte_val NUL - byte_val c2
  | c1 :: _, [] => byte_val c1 - byte_val NUL
  | c1 :: r1, c2 :: r2 =>
      if Byte.eqb c1 c2
      then (if Byte.eqb c1 NUL then 0 else strcmp r1 r2)
      else byte_val c1 - byte_val c2
  end.

(** Modelled from the spec: [isspace] (ctype.h is not part of the sources at
    hand): the "whitespace byte" test, true for space, form feed, newline,
    carriage return, horizontal tab and vertical tab. *)
Definition isspace (c : byte) : bool :=
  match c with
  | x20 | x0c | x0a | x0d | x09 | x0b => true
  | _ => false
  end.

(** Index of the first occurrence of [c] in [s]. *)
Fixpoint memchr (s : list byte) (c : byte) : option nat :=
  match s with
  | [] => None
  | b :: r => if Byte.eqb b c then Some O else option_map S (memchr r c)
  end.

(** Modelled from the spec: [memchr_user] (ipxe/uaccess.h is not part of the
    sources at hand): "locate the next ['\n'] at or after the current offset
    (search bounded by script length)"; the result is the offset of the
    byte found, counted from the start of the buffer, and is negative when
    the [n] bytes searched hold no such byte. *)
Definition memchr_user (buffer : list byte) (offset : Z) (c : byte) (n : Z)
  : Z :=
  match memchr (firstn (Z.to_nat n) (skipn (Z.to_nat offset) buffer)) c with
  | Some i => offset + Z.of_nat i
  | None => -1
  end.

(** Modelled from the spec: [copy_from_user] (ipxe/uaccess.h is not part of
    the sources at hand): the [n] bytes of the buffer that start at
    [offset]. *)
Definition copy_from_user (buffer : list byte) (offset n : Z) : list byte :=
  firstn (Z.to_nat n) (skipn (Z.to_nat offset) buffer).

(* ------------------------------------------------------------------ *)
(** ** Images *)

(** What [image->type] can point to: this file's [script_image_type] or the
    image type of some other format. *)
Inductive image_type : Type :=
| script_image_type
| foreign_image_type (name : string).

(** The fields of [struct image] this file reads or writes.  [len] is the
    number of bytes [data] addresses. *)
Record image : Type := mk_image {
  data : list byte;
  type : option image_type
}.

Definition len (img : image) : Z := Z.of_nat (length (data img)).

Definition set_type (t : image_type) (img : image) : image :=
  {| data := data img; type := Some t |}.

(* ------------------------------------------------------------------ *)
(** ** What the file takes from the rest of iPXE *)

Class Platform : Type := {
  (** width of [size_t] in bits *)
  size_t_bits : Z;
  (** errno.h: each error has a number, none of them zero *)
  ENOEXEC : Z;
  ENOENT : Z;
  ENOTTY : Z;
  ENOEXEC_nonzero : ENOEXEC <> 0;
  ENOENT_nonzero : ENOENT <> 0;
  ENOTTY_nonzero : ENOTTY <> 0;
  (** everything outside this file: image registry, console, settings... *)
  World : Type;
  unregister_image : image -> World -> World;
  register_image : image -> World -> World;
  (** console output of an already formatted message *)
  printf : list byte -> World -> World;
  (** [parse_options (argc, argv, &goto_cmd, &opts)]: status and the
      resulting [optind] *)
  parse_options : list (list byte) -> World -> Z * nat * World
}.

Section Script.

Context {P : Platform}.

(** Arithmetic on [size_t] wraps. *)
Definition size_t_wrap (z : Z) : Z := z mod 2 ^ size_t_bits.

(** A script whose length is below [SIZE_MAX] (the offset one past its
    end, plus one, is still a [size_t]). *)
Definition fits_size_t (img : image) : Prop := len img + 1 < 2 ^ size_t_bits.

(* ------------------------------------------------------------------ *)
(** ** Load script into memory: [script_load] *)

Definition ipxe_magic : list byte := c_literal "#!ipxe".
Definition gpxe_magic : list byte := c_literal "#!gpxe".

(** [sizeof (test)]: the magic without its NUL, plus the terminating
    space. *)
Definition sizeof_test : Z := sizeof ipxe_magic - 1 + 1.

Definition script_load (img : image) : Z * image :=
  (* Sanity check *)
  if len img <? sizeof_test then (- ENOEXEC, img)
  else
    (* Check for magic signature *)
    let test := copy_from_user (data img) 0 sizeof_test in
    if negb (((memcmp test ipxe_magic (Z.to_nat (sizeof_test - 1)) =? 0)
              || (memcmp test gpxe_magic (Z.to_nat (sizeof_test - 1)) =? 0))
             && isspace (char_at test (Z.to_nat (sizeof_test - 1))))
    then (- ENOEXEC, img)
    else
      (* This is a script *)
      (0, set_type script_image_type img).

(* ------------------------------------------------------------------ *)
(** ** The execution cursor and the state the file threads *)

Record state : Type := mk_state {
  (** [static struct image *script]: currently running script, NULL when
      there is none *)
  script : option image;
  (** [static size_t script_offset]: offset within current script *)
  script_offset : Z;
  (** [static const char *goto_label]: current "goto" label *)
  goto_label : option (list byte);
  (** the rest of the machine *)
  world : World
}.

Definition set_script (s : option image) (st : state) : state :=
  {| script := s; script_offset := script_offset st;
     goto_label := goto_label st; world := world st |}.

Definition set_script_offset (o : Z) (st : state) : state :=
  {| script := script st; script_offset := o;
     goto_label := goto_label st; world := world st |}.

Definition set_goto_label (l : option (list byte)) (st : state) : state :=
  {| script := script st; script_offset := script_offset st;
     goto_label := l; world := world st |}.

Definition set_world (w : World) (st : state) : state :=
  {| script := script st; script_offset := script_offset st;
     goto_label := goto_label st; world := w |}.

(** A C function of this file that returns an [A]. *)
Definition M (A : Type) : Type := state -> option (A * state).

Definition ret {A : Type} (a : A) : M A := fun st => Some (a, st).

Definition bind {A B : Type} (m : M A) (k : A -> M B) : M B :=
  fun st => match m st with
            | Some (a, st') => k a st'
            | None => None
            end.

Notation "x <- m ;; k" := (bind m (fun x => k))
  (at level 61, m at next level, right associativity).

(* ------------------------------------------------------------------ *)
(** ** Process script lines: [process_script] *)

(** The first half of the loop body: find the next line, copy it into
    [cmdbuf] with a terminating NUL, and move [script_offset] to the next
    line.  The result is [cmdbuf]. *)
Definition next_line : M (list byte) := fun st =>
  match script st with
  | None => None
  | Some s =>
      (* Find length of next line, excluding any terminating '\n' *)
      let eol := memchr_user (data s) (script_offset st) NL
                   (size_t_wrap (len s - script_offset st)) in
      let eol := if eol <? 0 then len s else eol in
      let len := size_t_wrap (eol - script_offset st) in
      (* Copy line, terminate with NUL *)
      let cmdbuf := copy_from_user (data s) (script_offset st) len ++ [NUL] in
      (* Move to next line *)
      Some (cmdbuf,
            set_script_offset
              (size_t_wrap (script_offset st + size_t_wrap (len + 1))) st)
  end.

(** The rest of the loop body: hand [cmdbuf] to the line processor, which
    runs on the state in which [script_offset] has already moved. *)
Definition process_script_step (process_line : list byte -> M Z) : M Z :=
  cmdbuf <- next_line ;; process_line cmdbuf.

(** The loop test [script_offset < script->len]. *)
Definition more_lines (st : state) : option bool :=
  match script st with
  | None => None
  | Some s => Some (script_offset st <? len s)
  end.

(** The [do { ... } while ( script_offset < script->len )] loop; one unit of
    fuel per iteration. *)
Fixpoint process_script_loop (fuel : nat)
    (process_line : list byte -> M Z) (terminate : Z -> bool) : M Z :=
  fun st =>
    match fuel with
    | O => None
    | S fuel' =>
        match process_script_step process_line st with
        | None => None
        | Some (rc, st1) =>
            if terminate rc then Some (rc, st1)
            else match more_lines st1 with
                 | None => None
                 | Some true =>
                     process_script_loop fuel' process_line terminate st1
                 | Some false => Some (rc, st1)
                 end
        end
    end.

Definition process_script (fuel : nat)
    (process_line : list byte -> M Z) (terminate : Z -> bool) : M Z :=
  fun st => process_script_loop fuel process_line terminate
              (set_script_offset 0 st).

(** The same loop with a ghost record of the calls made to [process_line]:
    each visited line with the status it produced, in order. *)
Fixpoint process_script_loop_visits (fuel : nat)
    (process_line : list byte -> M Z) (terminate : Z -> bool)
    (st : state) : option (list (list byte * Z) * Z * state) :=
  match fuel with
  | O => None
  | S fuel' =>
      match next_line st with
      | None => None
      | Some (cmdbuf, st0) =>
          match process_line cmdbuf st0 with
          | None => None
          | Some (rc, st1) =>
              if terminate rc then Some ([(cmdbuf, rc)], rc, st1)
              else match more_lines st1 with
                   | None => None
                   | Some true =>
                       match process_script_loop_visits fuel' process_line
                               terminate st1 with
                       | None => None
                       | Some (tr, rc', st') =>
                           Some ((cmdbuf, rc) :: tr, rc', st')
                       end
                   | Some false => Some ([(cmdbuf, rc)], rc, st1)
                   end
          end
      end
  end.

Definition process_script_visits (fuel : nat)
    (process_line : list byte -> M Z) (terminate : Z -> bool)
    (st : state) : option (list (list byte * Z) * Z * state) :=
  process_script_loop_visits fuel process_line terminate
    (set_script_offset 0 st).

(** Terminate script processing if line processing failed *)
Definition terminate_on_failure (rc : Z) : bool := negb (rc =? 0).

(** Terminate script processing if line processing succeeded *)
Definition terminate_on_success (rc : Z) : bool := rc =? 0.

(* ------------------------------------------------------------------ *)
(** ** Execute script: [script_exec_line], [script_exec] *)

(** The text printed when a command fails. *)
Definition aborting_message (line : list byte) : list byte :=
  bytes "Aborting on " ++ [DQUOTE] ++ cstr line ++ [DQUOTE; NL].

(** The command dispatcher [system] is outside this file and is passed as an
    argument: the commands it runs may call back into [goto_exec] and
    [script_exec], so it acts on the whole state. *)
Definition script_exec_line (system : list byte -> M Z) (line : list byte)
  : M Z :=
  fun st =>
    (* Skip label lines *)
    if Byte.eqb (char_at line 0) COLON then Some (0, st)
    else
      (* Execute command *)
      match system line st with
      | None => None
      | Some (rc, st1) =>
          if negb (rc =? 0)
          then Some (rc, set_world (printf (aborting_message line) (world st1))
                           st1)
          else Some (0, st1)
      end.

Definition script_exec (system : list byte -> M Z) (fuel : nat) (img : image)
  : M Z :=
  fun st =>
    (* Temporarily de-register image *)
    let st := set_world (unregister_image img (world st)) st in
    (* Preserve state of any currently-running script *)
    let saved_script := script st in
    let saved_offset := script_offset st in
    (* Initialise state for this script *)
    let st := set_script (Some img) st in
    (* Process script *)
    match process_script fuel (script_exec_line system) terminate_on_failure
            st with
    | None => None
    | Some (rc, st) =>
        (* Restore saved state, re-register image, and return *)
        let st := set_script_offset saved_offset st in
        let st := set_script saved_script st in
        let st := set_world (register_image img (world st)) st in
        Some (rc, st)
    end.

(* ------------------------------------------------------------------ *)
(** ** The "goto" command: [goto_find_label], [goto_exec] *)

(** Check for presence of label *)
Definition goto_find_label (line : list byte) : M Z := fun st =>
  if negb (Byte.eqb (char_at line 0) COLON) then Some (- ENOENT, st)
  else
    match goto_label st with
    | None => None
    | Some label =>
        if negb (strcmp label (tl line) =? 0) then Some (- ENOENT, st)
        else Some (0, st)
    end.

Definition not_in_a_script : list byte := bytes "Not in a script" ++ [NL].

Definition goto_exec (fuel : nat) (argv : list (list byte)) : M Z :=
  fun st =>
    (* Parse options *)
    let '(rc, optind, w) := parse_options argv (world st) in
    let st := set_world w st in
    if negb (rc =? 0) then Some (rc, st)
    else
      (* Sanity check *)
      match script st with
      | None =>
          Some (- ENOTTY, set_world (printf not_in_a_script (world st)) st)
      | Some _ =>
          (* Parse label *)
          let st := set_goto_label (nth_error argv optind) st in
          (* Find label *)
          let saved_offset := script_offset st in
          match process_script fuel goto_find_label terminate_on_success
                  st with
          | None => None
          | Some (rc, st) =>
              if negb (rc =? 0)
              then Some (rc, set_script_offset saved_offset st)
              else Some (0, st)
          end
      end.

End Script.

(* ------------------------------------------------------------------ *)
(** ** Vocabulary of the specification

    Lines, labels and offsets as the specification speaks of them, defined
    on the bytes of a script and independently of the walker. *)

(** The bytes of [s] up to, and excluding, its first newline (all of [s]
    when it holds none). *)
Fixpoint line_of (s : list byte) : list byte :=
  match s with
  | [] => []
  | b :: r => if Byte.eqb b NL then [] else b :: line_of r
  end.

(** The lines of a script: the byte runs between newlines. *)
Fixpoint split_lines (s : list byte) : list (list byte) :=
  match s with
  | [] => [[]]
  | b :: r =>
      if Byte.eqb b NL then [] :: split_lines r
      else match split_lines r with
           | l :: ls => (b :: l) :: ls
           | [] => [[b]]
           end
  end.

(** The bytes taken by the lines [ls] when each is followed by its
    newline; the offset at which the line after them starts. *)
Definition lines_size (ls : list (list byte)) : Z :=
  fold_right (fun l acc => Z.of_nat (length l) + 1 + acc) 0 ls.

(** [line] declares the label [label]: its text is a colon followed by
    exactly the text of [label]. *)
Definition is_label_line (label line : list byte) : Prop :=
  cstr line = COLON :: cstr label.

Definition is_label_line_dec (label line : list byte)
  : {is_label_line label line} + {~ is_label_line label line} :=
  list_eq_dec Byte.byte_eq_dec (cstr line) (COLON :: cstr label).

(** Offset just past the first line of [lines] that declares [label], when
    the first of [lines] starts at offset [off]. *)
Fixpoint find_label (label : list byte) (lines : list (list byte)) (off : Z)
  : option Z :=
  match lines with
  | [] => None
  | l :: r =>
      if is_label_line_dec label l then Some (off + Z.of_nat (length l) + 1)
      else find_label label r (off + Z.of_nat (length l) + 1)
  end.

(** A line processor that always returns, leaves the active script in place
    and never moves the offset backwards. *)
Definition advancing {P : Platform} (process_line : list byte -> M Z)
  : Prop :=
  forall line st,
    exists rc st',
      process_line line st = Some (rc, st') /\
      script st' = script st /\
      script_offset st <= script_offset st'.

(** The walk has used up the script: the loop test fails. *)
Definition exhausted {P : Platform} (st : state) : Prop :=
  exists s, script st = Some s /\ len s <= script_offset st.

(** The lines a walk goes through when nothing moves the cursor but the
    walker: the lines of the script, without the empty line that follows a
    final newline (the loop test ends the walk before it). *)
Fixpoint drop_final_empty (ls : list (list byte)) : list (list byte) :=
  match ls with
  | [] => []
  | l :: r =>
      match l, r with
      | [], [] => []
      | _, _ => l :: drop_final_empty r
      end
  end.

Definition visited_lines (s : list byte) : list (list byte) :=
  match split_lines s with
  | [] => []
  | l :: r => l :: drop_final_empty r
  end.

(** A line processor that leaves the cursor as the walker set it. *)
Definition cursor_preserving {P : Platform} (process_line : list byte -> M Z)
  : Prop :=
  forall line st rc st',
    process_line line st = Some (rc, st') ->
    script st' = script st /\ script_offset st' = script_offset st.

(** A line processor that always returns, with a status that is a function
    of the line alone, and leaves the cursor as the walker set it. *)
Definition answers_with {P : Platform} (process_line : list byte -> M Z)
    (status_of : list byte -> Z) : Prop :=
  forall line st,
    exists st',
      process_line line st = Some (status_of line, st') /\
      script st' = script st /\
      script_offset st' = script_offset st.

(** The status a walk over [lines] ends with, for a line processor with the
    status function [status_of] and the stop predicate [terminate]. *)
Fixpoint walk_status (status_of : list byte -> Z) (terminate : Z -> bool)
    (lines : list (list byte)) : Z :=
  match lines with
  | [] => 0
  | l :: r =>
      let rc := status_of (l ++ [NUL]) in
      if terminate rc then rc
      else match r with
           | [] => rc
           | _ :: _ => walk_status status_of terminate r
           end
  end.

(** The status of the first command of [lines] that fails, label lines
    being skipped; 0 when none fails. *)
Fixpoint first_failure (status_of : list byte -> Z)
    (lines : list (list byte)) : Z :=
  match lines with
  | [] => 0
  | l :: r =>
      if Byte.eqb (hd NUL l) COLON then first_failure status_of r
      else if status_of (l ++ [NUL]) =? 0 then first_failure status_of r
      else status_of (l ++ [NUL])
  end.

(** A line that lets the walk pass: a label line, or a command on which the
    dispatcher always returns 0 and leaves the cursor alone. *)
Definition passes {P : Platform} (system : list byte -> M Z)
    (l : list byte) : Prop :=
  hd NUL l = COLON \/
  forall st,
    exists st',
      system (l ++ [NUL]) st = Some (0, st') /\
      script st' = script st /\
      script_offset st' = script_offset st.

(* ------------------------------------------------------------------ *)
(** ** A platform to run the definitions on

    32-bit [size_t], POSIX error numbers, and a world that records what
    the file asks of its surroundings. *)

Inductive demo_event : Type :=
| Unregistered (img : image)
| Registered (img : image)
| Printed (msg : list byte).

#[global] Instance demo_platform : Platform := {|
  size_t_bits := 32;
  ENOEXEC := 8;
  ENOENT := 2;
  ENOTTY := 25;
  ENOEXEC_nonzero := ltac:(discriminate);
  ENOENT_nonzero := ltac:(discriminate);
  ENOTTY_nonzero := ltac:(discriminate);
  World := list demo_event;
  unregister_image := fun img w => w ++ [Unregistered img];
  register_image := fun img w => w ++ [Registered img];
  printf := fun msg w => w ++ [Printed msg];
  parse_options := fun argv w =>
    match argv with
    | [_; _] => (0, 1%nat, w)
    | _ => (-22, length argv, w)
    end
|}.

Definition demo_image (s : list byte) : image :=
  {| data := s; type := Some script_image_type |}.

Definition demo_state (s : option image) (off : Z) : state :=
  {| script := s; script_offset := off; goto_label := None; world := [] |}.

(** A line processor that reports the offset it finds in the cursor. *)
Definition report_offset : list byte -> M Z :=
  fun _ st => Some (script_offset st, st).

(** A dispatcher that knows three commands: [boot] runs [inner], [false]
    fails with status 1, and [goto <label>] calls [goto_exec]; every other
    line succeeds. *)
Definition demo_system (inner : M Z) (line : list byte) : M Z :=
  let text := cstr line in
  if list_eq_dec Byte.byte_eq_dec text (bytes "boot") then inner
  else if list_eq_dec Byte.byte_eq_dec text (bytes "false") then ret 1
  else if list_eq_dec Byte.byte_eq_dec (firstn 5 text) (bytes "goto ")
       then goto_exec 64 [c_literal "goto"; skipn 5 text ++ [NUL]]
       else ret 0.

(** A dispatcher without jumps: [false] fails with status 1 and every other
    line succeeds. *)
Definition demo_plain_system (line : list byte) : M Z :=
  if list_eq_dec Byte.byte_eq_dec (cstr line) (bytes "false") then ret 1
  else ret 0.

(** The status function of [demo_plain_system]. *)
Definition demo_plain_status (line : list byte) : Z :=
  if list_eq_dec Byte.byte_eq_dec (cstr line) (bytes "false") then 1 else 0.

(** [":start\necho hi\ngoto start\n"] after the magic line *)
Definition demo_loop_script : list byte :=
  bytes "#!ipxe" ++ [NL] ++ bytes ":start" ++ [NL] ++ bytes "echo hi" ++ [NL]
  ++ bytes "goto start" ++ [NL].

Definition demo_skip_script : list byte :=
  bytes "#!ipxe" ++ [NL] ++ bytes "goto end" ++ [NL] ++ bytes "false" ++ [NL]
  ++ bytes ":end" ++ [NL] ++ bytes "echo done" ++ [NL].

Definition demo_outer_script : list byte :=
  bytes "#!ipxe" ++ [NL] ++ bytes "boot" ++ [NL] ++ bytes "echo after".

Definition demo_inner_script : list byte :=
  bytes "#!ipxe" ++ [NL] ++ bytes "echo one" ++ [NL] ++ bytes "false" ++ [NL]
  ++ bytes "echo never" ++ [NL].


(* ------------------------------------------------------------------ *)
(** ** Facts about bytes, C strings and lines *)

Lemma byte_val_inj (a b : byte) : byte_val a = byte_val b -> a = b.
Proof.
  unfold byte_val. intros H. apply N2Z.inj in H.
  assert (E : Some a = Some b).
  { rewrite <- (Byte.of_to_N a), <- (Byte.of_to_N b), H. reflexivity. }
  congruence.
Qed.

Lemma byte_eqb_refl (b : byte) : Byte.eqb b b = true.
Proof. apply Byte.byte_dec_lb. reflexivity. Qed.

Lemma byte_eqb_neq (a b : byte) : a <> b -> Byte.eqb a b = false.
Proof.
  intros H. destruct (Byte.eqb a b) eqn:E; [|reflexivity].
  apply Byte.byte_dec_bl in E. contradiction.
Qed.

Lemma byte_val_diff (a b : byte) : a <> b -> byte_val a - byte_val b <> 0.
Proof. intros H E. apply H, byte_val_inj. lia. Qed.

Lemma strcmp_zero_iff (s1 s2 : list byte) :
  strcmp s1 s2 = 0 <-> cstr s1 = cstr s2.
Proof.
  revert s2. induction s1 as [|c1 r1 IH]; intros [|c2 r2]; simpl.
  - tauto.
  - destruct (Byte.eqb c2 NUL) eqn:E.
    + apply Byte.byte_dec_bl in E. subst. split; auto.
    + apply Byte.eqb_false in E. split; [|discriminate].
      intros H. exfalso. apply (byte_val_diff NUL c2); auto.
  - destruct (Byte.eqb c1 NUL) eqn:E.
    + apply Byte.byte_dec_bl in E. subst. split; auto.
    + apply Byte.eqb_false in E. split; [|discriminate].
      intros H. exfalso. apply (byte_val_diff c1 NUL); auto.
  - destruct (Byte.eqb c1 c2) eqn:E12.
    + apply Byte.byte_dec_bl in E12. subst c2.
      destruct (Byte.eqb c1 NUL); [tauto|].
      rewrite IH. split; [congruence|]. intros H; inversion H; auto.
    + apply Byte.eqb_false in E12. split.
      * intros H. exfalso. apply (byte_val_diff c1 c2 E12); auto.
      * intros H. exfalso.
        destruct (Byte.eqb c1 NUL) eqn:E1, (Byte.eqb c2 NUL) eqn:E2;
          try discriminate.
        -- apply Byte.byte_dec_bl in E1, E2. congruence.
        -- inversion H. contradiction.
Qed.

Lemma cstr_app_NUL (s : list byte) : cstr (s ++ [NUL]) = cstr s.
Proof.
  induction s as [|b r IH]; simpl; [reflexivity|].
  destruct (Byte.eqb b NUL); congruence.
Qed.

Lemma line_of_no_NL (s : list byte) : ~ In NL (line_of s).
Proof.
  induction s as [|b r IH]; simpl; [tauto|].
  destruct (Byte.eqb b NL) eqn:E; simpl; [tauto|].
  apply Byte.eqb_false in E. intros [H|H]; auto.
Qed.

Lemma line_of_whole (l : list byte) : ~ In NL l -> line_of l = l.
Proof.
  induction l as [|b r IH]; simpl; [reflexivity|].
  intros H. rewrite byte_eqb_neq by (intros ->; apply H; auto).
  rewrite IH; auto.
Qed.

Lemma line_of_app_NL (l r : list byte) :
  ~ In NL l -> line_of (l ++ NL :: r) = l.
Proof.
  induction l as [|b l IH]; simpl; intros H.
  - reflexivity.
  - rewrite byte_eqb_neq by (intros ->; apply H; auto).
    rewrite IH; auto.
Qed.

(** A script either is its own first line or continues after a newline. *)
Lemma line_of_cases (s : list byte) :
  (memchr s NL = None /\ line_of s = s) \/
  (exists r, memchr s NL = Some (length (line_of s)) /\
             s = line_of s ++ NL :: r).
Proof.
  induction s as [|b s IH]; simpl.
  - left. auto.
  - destruct (Byte.eqb b NL) eqn:E.
    + apply Byte.byte_dec_bl in E. subst. right. exists s. auto.
    + destruct IH as [[Hm Hl]|[r [Hm Hl]]].
      * left. rewrite Hm, Hl. auto.
      * right. exists r. rewrite Hm. simpl. split; [reflexivity|].
        congruence.
Qed.

Lemma split_lines_not_nil (s : list byte) : split_lines s <> [].
Proof.
  destruct s as [|b r]; simpl; [discriminate|].
  destruct (Byte.eqb b NL); [discriminate|].
  destruct (split_lines r); discriminate.
Qed.

Lemma split_lines_no_NL (l : list byte) : ~ In NL l -> split_lines l = [l].
Proof.
  induction l as [|b l IH]; simpl; intros H; [reflexivity|].
  rewrite byte_eqb_neq by (intros ->; apply H; auto).
  rewrite IH; auto.
Qed.

Lemma split_lines_app_NL (l r : list byte) :
  ~ In NL l -> split_lines (l ++ NL :: r) = l :: split_lines r.
Proof.
  induction l as [|b l IH]; simpl; intros H.
  - reflexivity.
  - rewrite byte_eqb_neq by (intros ->; apply H; auto).
    rewrite IH; auto.
Qed.

(** The first line of [split_lines] is [line_of], and the others are the
    lines of what follows the first newline. *)
Lemma split_lines_cases (s : list byte) :
  (split_lines s = [s] /\ line_of s = s /\ memchr s NL = None) \/
  (exists r, s = line_of s ++ NL :: r /\
             split_lines s = line_of s :: split_lines r /\
             memchr s NL = Some (length (line_of s))).
Proof.
  destruct (line_of_cases s) as [[Hm Hl]|[r [Hm Hl]]].
  - left. split; [|auto]. apply split_lines_no_NL. rewrite <- Hl.
    apply line_of_no_NL.
  - right. exists r. split; [exact Hl|]. split; [|exact Hm].
    rewrite Hl at 1. apply split_lines_app_NL, line_of_no_NL.
Qed.

(** [split_lines] loses nothing: joining the lines with newlines gives the
    script back, and no line holds a newline. *)
Lemma split_lines_join (s : list byte) :
  exists l ls,
    split_lines s = l :: ls /\
    s = l ++ concat (map (fun x => NL :: x) ls) /\
    Forall (fun x => ~ In NL x) (l :: ls).
Proof.
  induction s as [|b s IH]; simpl.
  - exists [], []. repeat split; auto.
  - destruct IH as [l [ls [E1 [E2 E3]]]].
    destruct (Byte.eqb b NL) eqn:E.
    + apply Byte.byte_dec_bl in E. subst b.
      exists [], (l :: ls). rewrite E1. simpl. split; [reflexivity|].
      split; [congruence|]. constructor; auto.
    + apply Byte.eqb_false in E. rewrite E1.
      exists (b :: l), ls. split; [reflexivity|].
      split; [simpl; congruence|].
      inversion E3; subst. constructor; auto.
      intros [H|H]; auto.
Qed.

(** On text without NUL bytes, a label line is a colon followed by the
    label, byte for byte. *)
Lemma cstr_no_NUL (s : list byte) : ~ In NUL s -> cstr s = s.
Proof.
  induction s as [|b s IH]; simpl; intros H; [reflexivity|].
  rewrite byte_eqb_neq by (intros ->; apply H; auto).
  rewrite IH; auto.
Qed.

Lemma is_label_line_plain (label line : list byte) :
  ~ In NUL label -> ~ In NUL line ->
  (is_label_line label line <-> line = COLON :: label).
Proof.
  intros Hl Hn. unfold is_label_line.
  rewrite (cstr_no_NUL label Hl), (cstr_no_NUL line Hn). tauto.
Qed.

Lemma lines_size_nonneg (ls : list (list byte)) : 0 <= lines_size ls.
Proof. induction ls as [|l ls IH]; simpl; lia. Qed.

Lemma lines_size_app (ls ls' : list (list byte)) :
  lines_size (ls ++ ls') = lines_size ls + lines_size ls'.
Proof. induction ls as [|l ls IH]; simpl; lia. Qed.

(** The lines before line [l] take [lines_size ls] bytes, and [l] starts
    right after them. *)
Lemma split_lines_prefix (ls : list (list byte)) :
  forall (s : list byte) (l : list byte) (after : list (list byte)),
    split_lines s = ls ++ l :: after ->
    exists pre suf,
      s = pre ++ suf /\ Z.of_nat (length pre) = lines_size ls /\
      split_lines suf = l :: after.
Proof.
  induction ls as [|l0 ls IH]; intros s l after H.
  - exists [], s. simpl. auto.
  - simpl in H.
    destruct (split_lines_cases s) as [[Hs _]|[r [Hr [Hs _]]]].
    + rewrite Hs in H. inversion H. destruct ls; discriminate.
    + rewrite Hs in H. inversion H as [[H0 H1]].
      destruct (IH r l after H1) as [pre [suf [E1 [E2 E3]]]].
      exists (line_of s ++ NL :: pre), suf. split; [|split].
      * rewrite Hr at 1. rewrite <- app_assoc. simpl. congruence.
      * rewrite length_app. simpl length. simpl lines_size. lia.
      * exact E3.
Qed.

(* ------------------------------------------------------------------ *)
(** ** The line walker *)

Section Walker.

Context {P : Platform}.

Lemma size_t_wrap_small (z : Z) :
  0 <= z < 2 ^ size_t_bits -> size_t_wrap z = z.
Proof. intros H. unfold size_t_wrap. apply Z.mod_small. exact H. Qed.

Lemma skipn_prefix (pre suf : list byte) :
  skipn (Z.to_nat (Z.of_nat (length pre))) (pre ++ suf) = suf.
Proof.
  rewrite Nat2Z.id, skipn_app, skipn_all, Nat.sub_diag. reflexivity.
Qed.

Lemma firstn_prefix (l r : list byte) :
  firstn (Z.to_nat (Z.of_nat (length l))) (l ++ r) = l.
Proof.
  rewrite Nat2Z.id, firstn_app, firstn_all, Nat.sub_diag. simpl.
  apply app_nil_r.
Qed.

(** One extraction: with the cursor at the start of [suf], the walker copies
    [line_of suf], terminates it with NUL, and moves the offset by the
    length of the line plus one. *)
Lemma next_line_at (s : image) (st : state) (pre suf : list byte) :
  script st = Some s ->
  fits_size_t s ->
  data s = pre ++ suf ->
  script_offset st = Z.of_nat (length pre) ->
  next_line st =
    Some (line_of suf ++ [NUL],
          set_script_offset
            (script_offset st + Z.of_nat (length (line_of suf)) + 1) st).
Proof.
  intros Hs Hfit Hd Ho. unfold next_line. rewrite Hs.
  unfold fits_size_t in Hfit.
  assert (Hlen : len s = Z.of_nat (length pre) + Z.of_nat (length suf)).
  { unfold len. rewrite Hd, length_app. lia. }
  assert (Hrem : size_t_wrap (len s - script_offset st)
                 = Z.of_nat (length suf)).
  { rewrite size_t_wrap_small; lia. }
  unfold memchr_user, copy_from_user.
  rewrite Hrem, Ho, Hd, skipn_prefix.
  replace (firstn (Z.to_nat (Z.of_nat (length suf))) suf) with suf
    by (rewrite Nat2Z.id, firstn_all; reflexivity).
  destruct (line_of_cases suf) as [[Hm Hl]|[r [Hm Hl]]]; rewrite Hm.
  - change (-1 <? 0) with true. cbv iota.
    rewrite Hlen.
    replace (Z.of_nat (length pre) + Z.of_nat (length suf)
             - Z.of_nat (length pre)) with (Z.of_nat (length suf)) by lia.
    rewrite (size_t_wrap_small (Z.of_nat (length suf))) by lia.
    rewrite (size_t_wrap_small (Z.of_nat (length suf) + 1)) by lia.
    rewrite size_t_wrap_small by lia.
    rewrite Nat2Z.id, firstn_all, Hl. f_equal. f_equal. f_equal. lia.
  - assert (Hll : Z.of_nat (length suf)
                  = Z.of_nat (length (line_of suf)) + 1
                    + Z.of_nat (length r)).
    { rewrite Hl at 1. rewrite length_app. simpl length. lia. }
    replace (Z.of_nat (length pre) + Z.of_nat (length (line_of suf)) <? 0)
      with false by (symmetry; apply Z.ltb_ge; lia).
    replace (Z.of_nat (length pre) + Z.of_nat (length (line_of suf))
             - Z.of_nat (length pre))
      with (Z.of_nat (length (line_of suf))) by lia.
    rewrite (size_t_wrap_small (Z.of_nat (length (line_of suf)))) by lia.
    rewrite (size_t_wrap_small (Z.of_nat (length (line_of suf)) + 1)) by lia.
    rewrite size_t_wrap_small by lia.
    replace (firstn (Z.to_nat (Z.of_nat (length (line_of suf)))) suf)
      with (line_of suf).
    + f_equal. f_equal. f_equal. lia.
    + rewrite <- (firstn_prefix (line_of suf) (NL :: r)) at 1.
      rewrite <- Hl. reflexivity.
Qed.

(** The same, with the position given as an offset into the data. *)
Lemma next_line_offset (s : image) (st : state) :
  script st = Some s ->
  fits_size_t s ->
  0 <= script_offset st <= len s ->
  next_line st =
    Some (line_of (skipn (Z.to_nat (script_offset st)) (data s)) ++ [NUL],
          set_script_offset
            (script_offset st
             + Z.of_nat (length (line_of (skipn (Z.to_nat (script_offset st))
                                            (data s)))) + 1) st).
Proof.
  intros Hs Hfit Ho.
  apply (next_line_at s st (firstn (Z.to_nat (script_offset st)) (data s)));
    auto.
  - symmetry. apply firstn_skipn.
  - rewrite length_firstn. unfold len in Ho. lia.
Qed.

(** The iteration that starts where the line [line] starts processes
    [line] and leaves the offset at the start of the line after it. *)
Lemma process_script_step_at_line
    (s : image) (st : state) (ls : list (list byte)) (line : list byte)
    (after : list (list byte)) (process_line : list byte -> M Z) :
  script st = Some s ->
  fits_size_t s ->
  split_lines (data s) = ls ++ line :: after ->
  script_offset st = lines_size ls ->
  process_script_step process_line st
  = process_line (line ++ [NUL])
      (set_script_offset (lines_size ls + Z.of_nat (length line) + 1) st).
Proof.
  intros Hs Hfit Hsplit Ho.
  destruct (split_lines_prefix ls (data s) line after Hsplit)
    as [pre [suf [E1 [E2 E3]]]].
  assert (Hline : line_of suf = line).
  { destruct (split_lines_cases suf) as [[Hsp [Hl _]]|[r [_ [Hsp _]]]];
      rewrite Hsp in E3; inversion E3; congruence. }
  unfold process_script_step, bind.
  rewrite (next_line_at s st pre suf Hs Hfit E1) by lia.
  rewrite Hline, Ho. reflexivity.
Qed.

(** When the script goes on past the end of [line], a line follows it. *)
Lemma split_lines_continue
    (s : image) (ls : list (list byte)) (line : list byte)
    (after : list (list byte)) :
  split_lines (data s) = ls ++ line :: after ->
  lines_size ls + Z.of_nat (length line) + 1 < len s ->
  exists next after', after = next :: after'.
Proof.
  intros Hsplit Hmore. destruct after as [|next after']; [|eauto].
  exfalso.
  destruct (split_lines_prefix ls (data s) line [] Hsplit)
    as [pre [suf [E1 [E2 E3]]]].
  destruct (split_lines_cases suf) as [[Hsp [Hl _]]|[r [_ [Hsp _]]]].
  - rewrite Hsp in E3. inversion E3; subst line.
    unfold len in Hmore. rewrite E1, length_app in Hmore. lia.
  - rewrite Hsp in E3. inversion E3 as [[H1 H2]].
    exact (split_lines_not_nil r H2).
Qed.

End Walker.

(* ------------------------------------------------------------------ *)
(** ** The format recogniser *)

Lemma memcmp_zero_iff (a b : list byte) (n : nat) :
  memcmp a b n = 0 <-> firstn n a = firstn n b.
Proof.
  revert a b. induction n as [|n IH]; intros a b; simpl.
  - split; reflexivity.
  - destruct a as [|x a], b as [|y b]; try solve [split; intros; (discriminate || reflexivity)].
    destruct (Byte.eqb x y) eqn:E.
    + apply Byte.byte_dec_bl in E. subst y. rewrite IH.
      split; [intros H; rewrite H; reflexivity|].
      intros H; inversion H; auto.
    + apply Byte.eqb_false in E. split.
      * intros H. exfalso. apply (byte_val_diff x y E); auto.
      * intros H. inversion H. contradiction.
Qed.

Section Recogniser.

Context {P : Platform}.

Lemma sizeof_test_7 : sizeof_test = 7.
Proof. reflexivity. Qed.

(** The build-time assertion of the source: both signatures have one
    size. *)
Lemma magic_size_match : sizeof ipxe_magic = sizeof gpxe_magic.
Proof. reflexivity. Qed.

(** The three ways through [script_load]. *)
Lemma script_load_cases (img : image) :
  let signature :=
    firstn 6 (data img) = bytes "#!ipxe" \/
    firstn 6 (data img) = bytes "#!gpxe" in
  let separator :=
    exists c, nth_error (data img) 6 = Some c /\ isspace c = true in
  (len img < 7 /\ script_load img = (- ENOEXEC, img)) \/
  (7 <= len img /\ ~ (signature /\ separator) /\
   script_load img = (- ENOEXEC, img)) \/
  (7 <= len img /\ signature /\ separator /\
   script_load img = (0, set_type script_image_type img)).
Proof.
  intros signature separator. unfold script_load.
  rewrite sizeof_test_7.
  destruct (len img <? 7) eqn:Elen.
  - left. apply Z.ltb_lt in Elen. auto.
  - right. apply Z.ltb_ge in Elen.
    unfold copy_from_user. change (Z.to_nat 0) with 0%nat.
    change (Z.to_nat 7) with 7%nat. change (Z.to_nat (7 - 1)) with 6%nat.
    rewrite skipn_O.
    assert (Hi : (memcmp (firstn 7 (data img)) ipxe_magic 6 =? 0) = true
                 <-> firstn 6 (data img) = bytes "#!ipxe").
    { rewrite Z.eqb_eq, memcmp_zero_iff, firstn_firstn. reflexivity. }
    assert (Hg : (memcmp (firstn 7 (data img)) gpxe_magic 6 =? 0) = true
                 <-> firstn 6 (data img) = bytes "#!gpxe").
    { rewrite Z.eqb_eq, memcmp_zero_iff, firstn_firstn. reflexivity. }
    assert (Hc : nth_error (data img) 6
                 = Some (char_at (firstn 7 (data img)) 6)).
    { unfold char_at. rewrite nth_firstn. change (6 <? 7)%nat with true.
      cbv iota. apply nth_error_nth'. unfold len in Elen. lia. }
    assert (Hs : isspace (char_at (firstn 7 (data img)) 6) = true
                 <-> separator).
    { unfold separator. split.
      - intros H. eexists. split; [exact Hc | exact H].
      - intros [c [H1 H2]]. rewrite Hc in H1. inversion H1. congruence. }
    destruct ((memcmp (firstn 7 (data img)) ipxe_magic 6 =? 0)
              || (memcmp (firstn 7 (data img)) gpxe_magic 6 =? 0)) eqn:Em.
    + destruct (isspace (char_at (firstn 7 (data img)) 6)) eqn:Esp.
      * right. simpl. repeat split; auto.
        -- apply orb_true_iff in Em. unfold signature. tauto.
        -- apply Hs. reflexivity.
      * left. simpl. repeat split; auto.
        intros [_ H]. apply Hs in H. discriminate.
    + left. simpl. repeat split; auto.
      intros [H _]. apply orb_false_iff in Em. destruct Em as [E1 E2].
      destruct H as [H|H]; [apply Hi in H | apply Hg in H]; congruence.
Qed.

(** C6: [script_load] accepts a blob (returns 0 and tags it as a script)
    if and only if the blob has at least 7 bytes (signature length plus
    one), its first 6 bytes are exactly "#!ipxe" or "#!gpxe", and the byte
    after the signature is whitespace; a blob shorter than 7 bytes and a blob
    failing the signature-plus-whitespace check are rejected with the
    non-zero status [- ENOEXEC]. *)
Theorem script_load_accepts_iff (img : image) :
  let signature :=
    firstn 6 (data img) = bytes "#!ipxe" \/
    firstn 6 (data img) = bytes "#!gpxe" in
  let separator :=
    exists c, nth_error (data img) 6 = Some c /\ isspace c = true in
  sizeof_test = sizeof ipxe_magic - 1 + 1 /\ sizeof_test = 7 /\
  (fst (script_load img) = 0 <-> 7 <= len img /\ signature /\ separator) /\
  (fst (script_load img) = 0 ->
   type (snd (script_load img)) = Some script_image_type /\
   data (snd (script_load img)) = data img) /\
  (len img < 7 -> fst (script_load img) = - ENOEXEC) /\
  (~ (signature /\ separator) -> fst (script_load img) = - ENOEXEC) /\
  - ENOEXEC <> 0.
Proof.
  intros signature separator.
  assert (Hnz : - ENOEXEC <> 0) by (pose proof ENOEXEC_nonzero; lia).
  split; [reflexivity|]. split; [reflexivity|].
  subst signature separator.
  destruct (script_load_cases img)
    as [[Hl Hr]|[[Hl [Hn Hr]]|[Hl [Hsig [Hsep Hr]]]]];
    rewrite Hr; simpl;
    repeat split; try tauto; try lia; try (intros; exfalso; tauto).
Qed.

(** C9: whenever [script_load] rejects a blob, for either reason, the image
    it hands back is the image it was given: [image->type] is assigned on
    the acceptance path only. *)
Theorem script_load_reject_unchanged (img : image) :
  (fst (script_load img) <> 0 -> snd (script_load img) = img) /\
  (snd (script_load img) <> img -> fst (script_load img) = 0) /\
  (fst (script_load img) = 0 ->
   type (snd (script_load img)) = Some script_image_type /\
   data (snd (script_load img)) = data img).
Proof.
  destruct (script_load_cases img)
    as [[Hl Hr]|[[Hl [Hn Hr]]|[Hl [Hsig [Hsep Hr]]]]];
    rewrite Hr; simpl; (split; [|split]); auto; try congruence;
    intros H0; exfalso; apply ENOEXEC_nonzero; lia.
Qed.

(** C10: the two rejections of [script_load], blob shorter than the magic
    plus separator and invalid signature or separator, return the same
    status [- ENOEXEC]: the value does not tell them apart. *)
Theorem script_load_reject_same_status (short bad : image) :
  len short < sizeof_test ->
  sizeof_test <= len bad ->
  ~ ((firstn 6 (data bad) = bytes "#!ipxe" \/
      firstn 6 (data bad) = bytes "#!gpxe") /\
     exists c, nth_error (data bad) 6 = Some c /\ isspace c = true) ->
  fst (script_load short) = - ENOEXEC /\
  fst (script_load bad) = - ENOEXEC /\
  fst (script_load short) = fst (script_load bad).
Proof.
  rewrite sizeof_test_7. intros Hs Hb Hbad.
  destruct (script_load_cases short)
    as [[Hl Hr]|[[Hl [Hn Hr]]|[Hl [Hsig [Hsep Hr]]]]]; try lia.
  destruct (script_load_cases bad)
    as [[Hl' Hr']|[[Hl' [Hn' Hr']]|[Hl' [Hsig' [Hsep' Hr']]]]];
    try lia; try (exfalso; tauto).
  rewrite Hr, Hr'. simpl. auto.
Qed.

End Recogniser.

(* ------------------------------------------------------------------ *)
(** ** The walk as a whole *)

Section Walk.

Context {P : Platform}.

Variable process_line : list byte -> M Z.
Variable terminate : Z -> bool.

(** Forgetting the ghost record gives back the loop of the source. *)
Lemma process_script_loop_erase (fuel : nat) (st : state) :
  process_script_loop fuel process_line terminate st =
  option_map (fun v => (snd (fst v), snd v))
    (process_script_loop_visits fuel process_line terminate st).
Proof.
  revert st. induction fuel as [|fuel IH]; intros st; simpl.
  - reflexivity.
  - unfold process_script_step, bind.
    destruct (next_line st) as [[cmdbuf st0]|]; [|reflexivity].
    destruct (process_line cmdbuf st0) as [[rc st1]|]; [|reflexivity].
    destruct (terminate rc); [reflexivity|].
    destruct (more_lines st1) as [[|]|]; try reflexivity.
    rewrite IH.
    destruct (process_script_loop_visits fuel process_line terminate st1)
      as [[[tr rc'] st']|]; reflexivity.
Qed.

Lemma more_lines_false_exhausted (st : state) :
  more_lines st = Some false -> exhausted st.
Proof.
  unfold more_lines, exhausted. destruct (script st) as [s|]; [|discriminate].
  intros H. exists s. split; [reflexivity|].
  inversion H as [H0]. apply Z.ltb_ge in H0. exact H0.
Qed.

(** Shape of a completed walk: some visits on which the stop predicate was
    false, then a last visit whose status is the result. *)
Lemma process_script_loop_visits_shape (fuel : nat) :
  forall (st : state) (tr : list (list byte * Z)) (rc : Z) (st' : state),
    process_script_loop_visits fuel process_line terminate st
    = Some (tr, rc, st') ->
    exists tr0 line,
      tr = tr0 ++ [(line, rc)] /\
      Forall (fun v => terminate (snd v) = false) tr0 /\
      (terminate rc = true \/ (terminate rc = false /\ exhausted st')).
Proof.
  induction fuel as [|fuel IH]; intros st tr rc st' H; simpl in H.
  - discriminate.
  - destruct (next_line st) as [[cmdbuf st0]|]; [|discriminate].
    destruct (process_line cmdbuf st0) as [[rc1 st1]|]; [|discriminate].
    destruct (terminate rc1) eqn:Et.
    + inversion H; subst. exists [], cmdbuf. auto.
    + destruct (more_lines st1) as [[|]|] eqn:Em; try discriminate.
      * destruct (process_script_loop_visits fuel process_line terminate st1)
          as [[[tr1 rc'] st1']|] eqn:El; [|discriminate].
        inversion H; subst.
        destruct (IH _ _ _ _ El) as [tr0 [line [E1 [E2 E3]]]].
        exists ((cmdbuf, rc1) :: tr0), line. subst tr1. simpl.
        split; [reflexivity|]. split; [|exact E3].
        constructor; auto.
      * inversion H; subst. exists [], cmdbuf.
        split; [reflexivity|]. split; [constructor|].
        right. split; [exact Et|].
        apply more_lines_false_exhausted. exact Em.
Qed.

(** A walk whose line processor is [advancing] comes to an end: each
    iteration moves the offset up by at least one. *)
Lemma process_script_loop_returns (s : image) :
  fits_size_t s ->
  advancing process_line ->
  forall (fuel : nat) (st : state),
    script st = Some s ->
    0 <= script_offset st <= len s ->
    len s - script_offset st < Z.of_nat fuel ->
    exists rc st',
      process_script_loop fuel process_line terminate st = Some (rc, st').
Proof.
  intros Hfit Hadv. induction fuel as [|fuel IH]; intros st Hs Ho Hf.
  - lia.
  - simpl. unfold process_script_step, bind.
    rewrite (next_line_offset s st Hs Hfit Ho).
    match goal with
    | |- context [process_line ?l ?t] =>
        destruct (Hadv l t) as [rc [st1 [E1 [E2 E3]]]]; rewrite E1
    end.
    destruct (terminate rc); [eauto|].
    unfold more_lines. rewrite E2. simpl script. rewrite Hs.
    destruct (script_offset st1 <? len s) eqn:El; [|eauto].
    apply Z.ltb_lt in El. simpl script_offset in E3.
    apply IH.
    + rewrite E2. exact Hs.
    + lia.
    + lia.
Qed.

End Walk.

Section WalkerClaims.

Context {P : Platform}.


(** C5 (amended): on a script of length 0 the walk calls the line processor
    once, on the empty line, before the loop test is reached; when that call
    leaves the active script in place the walk ends there with its status, so
    the line processor is called exactly once. *)
Theorem process_script_empty_script
    (s : image) (st st1 : state) (process_line : list byte -> M Z)
    (terminate : Z -> bool) (rc : Z) (fuel : nat) :
  script st = Some s ->
  len s = 0 ->
  fits_size_t s ->
  process_line [NUL] (set_script_offset 1 st) = Some (rc, st1) ->
  script st1 = Some s ->
  0 <= script_offset st1 ->
  process_script_visits (S fuel) process_line terminate st
  = Some ([([NUL], rc)], rc, st1) /\
  process_script (S fuel) process_line terminate st = Some (rc, st1).
Proof.
  intros Hs Hlen Hfit Hpl Hs1 Ho1.
  assert (Hn : next_line (set_script_offset 0 st)
               = Some ([NUL], set_script_offset 1 st)).
  { assert (Hd : data s = []).
    { unfold len in Hlen. destruct (data s); [reflexivity|].
      simpl in Hlen. lia. }
    rewrite (next_line_at s (set_script_offset 0 st) [] []); auto. }
  assert (Hv : process_script_visits (S fuel) process_line terminate st
               = Some ([([NUL], rc)], rc, st1)).
  { unfold process_script_visits. simpl. rewrite Hn, Hpl.
    destruct (terminate rc); [reflexivity|].
    unfold more_lines. rewrite Hs1.
    replace (script_offset st1 <? len s) with false; [reflexivity|].
    symmetry. apply Z.ltb_ge. lia. }
  split; [exact Hv|].
  unfold process_script. rewrite process_script_loop_erase.
  unfold process_script_visits in Hv. rewrite Hv. reflexivity.
Qed.

(** C7: a completed walk made some visits on whose statuses the stop
    predicate was false and then one last visit, and it returns the status
    of that last visit: either the stop predicate is true on it (the walk
    stopped at the first such line and visited none after it) or the script
    is exhausted.  A walk over an [advancing] line processor does complete,
    within as many iterations as the script has bytes, plus one. *)
Theorem process_script_result :
  (forall (fuel : nat) (process_line : list byte -> M Z)
          (terminate : Z -> bool) (st : state) (rc : Z) (st' : state),
      process_script fuel process_line terminate st = Some (rc, st') ->
      exists tr line,
        process_script_visits fuel process_line terminate st
        = Some (tr ++ [(line, rc)], rc, st') /\
        Forall (fun v => terminate (snd v) = false) tr /\
        (terminate rc = true \/ (terminate rc = false /\ exhausted st'))) /\
  (forall (process_line : list byte -> M Z) (terminate : Z -> bool)
          (s : image) (st : state) (fuel : nat),
      script st = Some s ->
      fits_size_t s ->
      advancing process_line ->
      len s < Z.of_nat fuel ->
      exists rc st',
        process_script fuel process_line terminate st = Some (rc, st')).
Proof.
  split.
  - intros fuel process_line terminate st rc st' H.
    unfold process_script in H. rewrite process_script_loop_erase in H.
    unfold process_script_visits.
    destruct (process_script_loop_visits fuel process_line terminate
                (set_script_offset 0 st)) as [[[tr rc0] st0]|] eqn:E;
      [|discriminate].
    simpl in H. inversion H; subst.
    destruct (process_script_loop_visits_shape
                process_line terminate fuel _ _ _ _ E)
      as [tr0 [line [E1 [E2 E3]]]].
    exists tr0, line. subst tr. auto.
  - intros process_line terminate s st fuel Hs Hfit Hadv Hf.
    unfold process_script.
    apply (process_script_loop_returns process_line terminate s Hfit Hadv);
      simpl; auto.
    + unfold len. lia.
    + lia.
Qed.

End WalkerClaims.

(* ------------------------------------------------------------------ *)
(** ** Label search *)

Lemma cstr_nil_not_label (label : list byte) : ~ is_label_line label [].
Proof. unfold is_label_line. simpl. discriminate. Qed.

Lemma find_label_first (label raw : list byte) (after : list (list byte)) :
  is_label_line label raw ->
  forall (ls : list (list byte)) (off : Z),
    Forall (fun l => ~ is_label_line label l) ls ->
    find_label label (ls ++ raw :: after) off
    = Some (off + lines_size ls + Z.of_nat (length raw) + 1).
Proof.
  intros Hraw. induction ls as [|l ls IH]; intros off Hls; simpl.
  - destruct (is_label_line_dec label raw); [|contradiction].
    f_equal. lia.
  - inversion Hls; subst.
    destruct (is_label_line_dec label l); [contradiction|].
    rewrite IH by assumption. f_equal. lia.
Qed.

Lemma find_label_none (label : list byte) (lines : list (list byte)) :
  (forall l, In l lines -> ~ is_label_line label l) ->
  forall off, find_label label lines off = None.
Proof.
  induction lines as [|l ls IH]; intros H off; simpl.
  - reflexivity.
  - destruct (is_label_line_dec label l) as [Hl|Hl].
    + exfalso. apply (H l); simpl; auto.
    + apply IH. intros l' Hl'. apply H. simpl. auto.
Qed.

Section Goto.

Context {P : Platform}.

Lemma neg_ENOENT_nonzero : - ENOENT <> 0.
Proof. pose proof ENOENT_nonzero. lia. Qed.

(** What [goto_find_label] answers on the buffer of a line. *)
Lemma goto_find_label_line (label raw : list byte) (st : state) :
  goto_label st = Some label ->
  goto_find_label (raw ++ [NUL]) st
  = Some (if is_label_line_dec label raw then 0 else - ENOENT, st).
Proof.
  intros Hl. unfold goto_find_label. rewrite Hl.
  destruct raw as [|b r].
  - simpl. destruct (is_label_line_dec label []) as [H|H]; [|reflexivity].
    exfalso. exact (cstr_nil_not_label label H).
  - change (char_at ((b :: r) ++ [NUL]) 0) with b.
    change (tl ((b :: r) ++ [NUL])) with (r ++ [NUL]).
    destruct (Byte.eqb b COLON) eqn:Eb.
    + apply Byte.byte_dec_bl in Eb. subst b. cbv [negb].
      assert (Hiff : strcmp label (r ++ [NUL]) = 0
                     <-> is_label_line label (COLON :: r)).
      { rewrite strcmp_zero_iff, cstr_app_NUL. unfold is_label_line.
        change (cstr (COLON :: r)) with (COLON :: cstr r).
        split; [congruence|]. intros H; inversion H; auto. }
      destruct (strcmp label (r ++ [NUL]) =? 0) eqn:Es.
      * apply Z.eqb_eq, Hiff in Es.
        destruct (is_label_line_dec label (COLON :: r)); [|contradiction].
        reflexivity.
      * apply Z.eqb_neq in Es.
        destruct (is_label_line_dec label (COLON :: r)) as [H|H];
          [|reflexivity].
        apply Hiff in H. contradiction.
    + apply Byte.eqb_false in Eb. cbv [negb].
      destruct (is_label_line_dec label (b :: r)) as [H|H]; [|reflexivity].
      exfalso. unfold is_label_line in H. simpl in H.
      destruct (Byte.eqb b NUL); [discriminate|].
      inversion H. contradiction.
Qed.

(** The search loop, started at the beginning of [suf], ends at the offset
    [find_label] computes, or fails with [- ENOENT]. *)
Lemma goto_walk (s : image) (label : list byte) :
  fits_size_t s ->
  forall (fuel : nat) (st : state) (pre suf : list byte),
    script st = Some s ->
    goto_label st = Some label ->
    data s = pre ++ suf ->
    script_offset st = Z.of_nat (length pre) ->
    Z.of_nat (length suf) < Z.of_nat fuel ->
    exists o,
      process_script_loop fuel goto_find_label terminate_on_success st
      = match find_label label (split_lines suf) (script_offset st) with
        | Some off' => Some (0, set_script_offset off' st)
        | None => Some (- ENOENT, set_script_offset o st)
        end.
Proof.
  intros Hfit. induction fuel as [|fuel IH];
    intros st pre suf Hs Hl Hd Ho Hf.
  - lia.
  - simpl process_script_loop. unfold process_script_step, bind.
    rewrite (next_line_at s st pre suf Hs Hfit Hd Ho).
    rewrite (goto_find_label_line label) by exact Hl.
    assert (Hlen : len s = Z.of_nat (length pre) + Z.of_nat (length suf)).
    { unfold len. rewrite Hd, length_app. lia. }
    assert (Hno : terminate_on_success (- ENOENT) = false).
    { unfold terminate_on_success. apply Z.eqb_neq, neg_ENOENT_nonzero. }
    destruct (split_lines_cases suf) as [[Hsp [Hline _]]|[r [Hr [Hsp _]]]];
      rewrite Hsp; [rewrite Hline|]; simpl find_label;
      [destruct (is_label_line_dec label suf) as [Hy|Hn]
      |destruct (is_label_line_dec label (line_of suf)) as [Hy|Hn]].
    + exists 0. reflexivity.
    + exists (script_offset st + Z.of_nat (length suf) + 1).
      rewrite Hno. unfold more_lines. simpl script. rewrite Hs.
      simpl script_offset.
      replace (script_offset st + Z.of_nat (length suf) + 1 <? len s)
        with false by (symmetry; apply Z.ltb_ge; lia).
      reflexivity.
    + exists 0. reflexivity.
    + rewrite Hno. unfold more_lines. simpl script. rewrite Hs.
      simpl script_offset.
      assert (Hsuf : Z.of_nat (length suf)
                     = Z.of_nat (length (line_of suf)) + 1
                       + Z.of_nat (length r)).
      { rewrite Hr at 1. rewrite length_app. simpl length. lia. }
      destruct (script_offset st + Z.of_nat (length (line_of suf)) + 1
                <? len s) eqn:Em.
      * destruct (IH (set_script_offset
                        (script_offset st
                         + Z.of_nat (length (line_of suf)) + 1) st)
                    (pre ++ line_of suf ++ [NL]) r) as [o Ho'];
          auto.
        -- rewrite Hd. rewrite Hr at 1.
           rewrite <- !app_assoc. reflexivity.
        -- simpl script_offset. rewrite !length_app. simpl length. lia.
        -- lia.
        -- exists o. rewrite Ho'. simpl script_offset.
           destruct (find_label label (split_lines r)
                       (script_offset st
                        + Z.of_nat (length (line_of suf)) + 1));
             reflexivity.
      * apply Z.ltb_ge in Em.
        assert (r = []) by (destruct r; [reflexivity|simpl length in *; lia]).
        subst r. simpl.
        destruct (is_label_line_dec label []) as [H|H].
        -- exfalso. exact (cstr_nil_not_label label H).
        -- eexists. reflexivity.
Qed.

End Goto.

Section GotoClaims.

Context {P : Platform}.

(** [goto_exec] up to the search: with a script active and the options
    parsed, the result is decided by [find_label] on the lines of the
    script. *)
Lemma goto_exec_search
    (fuel : nat) (argv : list (list byte)) (optind : nat) (w : World)
    (label : list byte) (s : image) (st : state) :
  script st = Some s ->
  fits_size_t s ->
  parse_options argv (world st) = (0, optind, w) ->
  nth_error argv optind = Some label ->
  len s < Z.of_nat fuel ->
  let st0 := set_goto_label (Some label) (set_world w st) in
  goto_exec fuel argv st
  = match find_label label (split_lines (data s)) 0 with
    | Some off' => Some (0, set_script_offset off' st0)
    | None => Some (- ENOENT, st0)
    end.
Proof.
  intros Hs Hfit Hp Ha Hf st0. unfold goto_exec. rewrite Hp.
  change (negb (0 =? 0)) with false. cbv iota.
  simpl script. rewrite Hs. rewrite Ha. fold st0.
  unfold process_script.
  destruct (goto_walk s label Hfit fuel (set_script_offset 0 st0) [] (data s))
    as [o Ho]; auto.
  rewrite Ho. simpl script_offset.
  destruct (find_label label (split_lines (data s)) 0) as [off'|].
  - reflexivity.
  - replace (negb (- ENOENT =? 0)) with true.
    + destruct st; reflexivity.
    + symmetry. apply negb_true_iff, Z.eqb_neq, neg_ENOENT_nonzero.
Qed.

(** The first of several lines with a property. *)
Lemma first_label_line (label : list byte) (lines : list (list byte)) :
  (exists l, In l lines /\ is_label_line label l) ->
  exists ls raw after,
    lines = ls ++ raw :: after /\
    Forall (fun l => ~ is_label_line label l) ls /\
    is_label_line label raw.
Proof.
  induction lines as [|l lines IH]; intros [l0 [Hin Hl0]].
  - contradiction.
  - destruct (is_label_line_dec label l) as [Hl|Hl].
    + exists [], l, lines. auto.
    + destruct IH as [ls [raw [after [E1 [E2 E3]]]]].
      * destruct Hin as [->|Hin]; [contradiction|]. eauto.
      * exists (l :: ls), raw, after. subst lines. auto.
Qed.

(** C2: when some line of the active script declares the requested label,
    [goto_exec] returns 0 and leaves [script_offset] one past the end of the
    first such line (the lines before it do not declare the label, the lines
    after it play no part, even when they declare it again), wherever the
    cursor stood at the call.  If the script goes on past that offset, the
    next iteration of a walk processes the line that follows the label. *)
Theorem goto_exec_first_label
    (fuel : nat) (argv : list (list byte)) (optind : nat) (w : World)
    (label : list byte) (s : image) (st : state) :
  script st = Some s ->
  fits_size_t s ->
  parse_options argv (world st) = (0, optind, w) ->
  nth_error argv optind = Some label ->
  (exists l, In l (split_lines (data s)) /\ is_label_line label l) ->
  len s < Z.of_nat fuel ->
  exists ls raw after st',
    split_lines (data s) = ls ++ raw :: after /\
    Forall (fun l => ~ is_label_line label l) ls /\
    is_label_line label raw /\
    goto_exec fuel argv st = Some (0, st') /\
    script st' = Some s /\
    script_offset st' = lines_size ls + Z.of_nat (length raw) + 1 /\
    (script_offset st' < len s ->
     exists next after',
       after = next :: after' /\
       forall process_line,
         process_script_step process_line st'
         = process_line (next ++ [NUL])
             (set_script_offset
                (script_offset st' + Z.of_nat (length next) + 1) st')).
Proof.
  intros Hs Hfit Hp Ha Hex Hf.
  destruct (first_label_line label _ Hex)
    as [ls [raw [after [Hsplit [Hls Hraw]]]]].
  exists ls, raw, after.
  rewrite (goto_exec_search fuel argv optind w label s st Hs Hfit Hp Ha Hf).
  rewrite Hsplit, (find_label_first label raw after Hraw ls 0 Hls).
  set (st' := set_script_offset
                (0 + lines_size ls + Z.of_nat (length raw) + 1)
                (set_goto_label (Some label) (set_world w st))).
  exists st'. split; [reflexivity|]. split; [exact Hls|].
  split; [exact Hraw|]. split; [reflexivity|]. split; [exact Hs|].
  assert (Ho : script_offset st'
               = lines_size ls + Z.of_nat (length raw) + 1)
    by (simpl; lia).
  split; [exact Ho|]. rewrite Ho.
  intros Hmore.
  destruct (split_lines_continue s ls raw after Hsplit)
    as [next [after' ->]]; [lia|].
  exists next, after'. split; [reflexivity|].
  intros process_line.
  assert (Hsplit' : split_lines (data s) = (ls ++ [raw]) ++ next :: after').
  { rewrite <- app_assoc. exact Hsplit. }
  rewrite (process_script_step_at_line s st' (ls ++ [raw]) next after'
             process_line Hs Hfit Hsplit').
  - rewrite lines_size_app. simpl lines_size. do 2 f_equal. lia.
  - rewrite lines_size_app. simpl lines_size. lia.
Qed.

(** C3: when no line of the active script declares the requested label,
    [goto_exec] returns the non-zero status [- ENOENT] and [script_offset],
    like the active script and the world the option parser left, is what
    it was before the call. *)
Theorem goto_exec_label_not_found
    (fuel : nat) (argv : list (list byte)) (optind : nat) (w : World)
    (label : list byte) (s : image) (st : state) :
  script st = Some s ->
  fits_size_t s ->
  parse_options argv (world st) = (0, optind, w) ->
  nth_error argv optind = Some label ->
  (forall l, In l (split_lines (data s)) -> ~ is_label_line label l) ->
  len s < Z.of_nat fuel ->
  exists st',
    goto_exec fuel argv st = Some (- ENOENT, st') /\
    - ENOENT <> 0 /\
    script_offset st' = script_offset st /\
    script st' = script st /\
    world st' = w.
Proof.
  intros Hs Hfit Hp Ha Hnone Hf.
  rewrite (goto_exec_search fuel argv optind w label s st Hs Hfit Hp Ha Hf).
  rewrite (find_label_none label _ Hnone).
  eexists. split; [reflexivity|]. split; [apply neg_ENOENT_nonzero|].
  simpl. auto.
Qed.

(** C8: called with a well-formed argument list while no script is active,
    [goto_exec] returns the non-zero status [- ENOTTY] and changes neither
    [script] nor [script_offset]. *)
Theorem goto_exec_not_in_script
    (fuel : nat) (argv : list (list byte)) (optind : nat) (w : World)
    (st : state) :
  script st = None ->
  parse_options argv (world st) = (0, optind, w) ->
  exists st',
    goto_exec fuel argv st = Some (- ENOTTY, st') /\
    - ENOTTY <> 0 /\
    script st' = script st /\
    script_offset st' = script_offset st /\
    goto_label st' = goto_label st.
Proof.
  intros Hs Hp. unfold goto_exec. rewrite Hp.
  change (negb (0 =? 0)) with false. cbv iota.
  simpl script. rewrite Hs.
  eexists. split; [reflexivity|]. split.
  - pose proof ENOTTY_nonzero. lia.
  - simpl. auto.
Qed.

End GotoClaims.

(* ------------------------------------------------------------------ *)
(** ** Sequential execution and its re-entrancy *)

Section Exec.

Context {P : Platform}.

Lemma script_exec_line_advancing (system : list byte -> M Z) :
  advancing system -> advancing (script_exec_line system).
Proof.
  intros Hadv line st. unfold script_exec_line.
  destruct (Byte.eqb (char_at line 0) COLON).
  - exists 0, st. split; [reflexivity|]. split; [reflexivity|lia].
  - destruct (Hadv line st) as [rc [st1 [E1 [E2 E3]]]]. rewrite E1.
    destruct (negb (rc =? 0)); eexists; eexists;
      (split; [reflexivity|]); simpl; auto.
Qed.

(** Save and restore: whatever the walk did to the cursor, [script_exec]
    hands back the cursor it was called with. *)
Lemma script_exec_frame (system : list byte -> M Z) (fuel : nat)
    (img : image) (st : state) (rc : Z) (st' : state) :
  script_exec system fuel img st = Some (rc, st') ->
  script st' = script st /\ script_offset st' = script_offset st.
Proof.
  unfold script_exec. intros H.
  destruct (process_script fuel (script_exec_line system)
              terminate_on_failure _) as [[rc1 st1]|]; [|discriminate].
  inversion H; subst. simpl. auto.
Qed.

Lemma script_exec_returns (system : list byte -> M Z) (fuel : nat)
    (img : image) (st : state) :
  fits_size_t img ->
  advancing system ->
  len img < Z.of_nat fuel ->
  exists rc st', script_exec system fuel img st = Some (rc, st').
Proof.
  intros Hfit Hadv Hf. unfold script_exec, process_script.
  destruct (process_script_loop_returns (script_exec_line system)
              terminate_on_failure img Hfit
              (script_exec_line_advancing system Hadv) fuel
              (set_script_offset 0
                 (set_script (Some img)
                    (set_world (unregister_image img (world st)) st))))
    as [rc [st1 E]]; simpl; auto.
  - unfold len. lia.
  - lia.
  - rewrite E. eauto.
Qed.

(** A command that runs a script is itself [advancing]: nesting composes. *)
Lemma script_exec_advancing (system : list byte -> M Z) (fuel : nat)
    (img : image) :
  fits_size_t img ->
  advancing system ->
  len img < Z.of_nat fuel ->
  advancing (fun _ => script_exec system fuel img).
Proof.
  intros Hfit Hadv Hf line st.
  destruct (script_exec_returns system fuel img st Hfit Hadv Hf)
    as [rc [st' E]].
  destruct (script_exec_frame system fuel img st rc st' E) as [E1 E2].
  exists rc, st'. split; [exact E|]. split; [exact E1|]. lia.
Qed.

(** C1: [script_exec] returns with [script] and [script_offset] equal to
    their values before the call, whatever the script and whatever the
    commands did (success, failing command, cursor moved by a goto or by a
    nested script); it does return when the dispatcher is [advancing]; and
    when the command on a line of an outer script runs an inner script, the
    outer iteration ends with the outer script still active and the offset
    at the start of the following line, which is the line the outer walk
    processes next. *)
Theorem script_exec_restores_cursor :
  (forall (system : list byte -> M Z) (fuel : nat) (img : image)
          (st : state) (rc : Z) (st' : state),
      script_exec system fuel img st = Some (rc, st') ->
      script st' = script st /\ script_offset st' = script_offset st) /\
  (forall (system : list byte -> M Z) (fuel : nat) (img : image)
          (st : state),
      fits_size_t img ->
      advancing system ->
      len img < Z.of_nat fuel ->
      exists rc st', script_exec system fuel img st = Some (rc, st')) /\
  (forall (system_in : list byte -> M Z) (fuel_in : nat) (inner : image)
          (system : list byte -> M Z) (outer : image) (st : state)
          (ls : list (list byte)) (line : list byte)
          (after : list (list byte)) (rc : Z) (st1 : state),
      script st = Some outer ->
      fits_size_t outer ->
      split_lines (data outer) = ls ++ line :: after ->
      script_offset st = lines_size ls ->
      system (line ++ [NUL]) = script_exec system_in fuel_in inner ->
      process_script_step (script_exec_line system) st = Some (rc, st1) ->
      script st1 = Some outer /\
      script_offset st1 = lines_size (ls ++ [line]) /\
      (script_offset st1 < len outer ->
       exists next after',
         after = next :: after' /\
         (forall process_line,
             process_script_step process_line st1
             = process_line (next ++ [NUL])
                 (set_script_offset (lines_size (ls ++ [line; next])) st1)) /\
         (terminate_on_failure rc = false ->
          forall fuel,
            process_script_loop (S fuel) (script_exec_line system)
              terminate_on_failure st
            = process_script_loop fuel (script_exec_line system)
                terminate_on_failure st1))).
Proof.
  split; [exact script_exec_frame|]. split.
  { intros system fuel img st Hfit Hadv Hf.
    exact (script_exec_returns system fuel img st Hfit Hadv Hf). }
  intros system_in fuel_in inner system outer st ls line after rc st1
    Hs Hfit Hsplit Ho Hsys Hstep.
  assert (Hcur : script st1 = Some outer /\
                 script_offset st1
                 = lines_size ls + Z.of_nat (length line) + 1).
  { rewrite (process_script_step_at_line outer st ls line after _
               Hs Hfit Hsplit Ho) in Hstep.
    unfold script_exec_line in Hstep.
    destruct (Byte.eqb (char_at (line ++ [NUL]) 0) COLON).
    - inversion Hstep; subst. simpl. auto.
    - rewrite Hsys in Hstep.
      match type of Hstep with
      | context [script_exec ?a ?b ?c ?d] =>
          destruct (script_exec a b c d) as [[rc2 st2]|] eqn:E;
          [|discriminate]
      end.
      apply script_exec_frame in E. destruct E as [E1 E2].
      simpl in E1, E2.
      destruct (negb (rc2 =? 0)); inversion Hstep; subst; simpl;
        rewrite E1, E2; auto. }
  destruct Hcur as [Hs1 Ho1].
  split; [exact Hs1|]. split.
  { rewrite lines_size_app. simpl lines_size. lia. }
  intros Hmore.
  destruct (split_lines_continue outer ls line after Hsplit)
    as [next [after' ->]]; [lia|].
  exists next, after'. split; [reflexivity|]. split.
  - intros process_line.
    assert (Hsplit' : split_lines (data outer)
                      = (ls ++ [line]) ++ next :: after').
    { rewrite <- app_assoc. exact Hsplit. }
    rewrite (process_script_step_at_line outer st1 (ls ++ [line]) next after'
               process_line Hs1 Hfit Hsplit').
    + rewrite !lines_size_app. simpl lines_size. do 2 f_equal. lia.
    + rewrite lines_size_app. simpl lines_size. lia.
  - intros Hterm fuel. simpl process_script_loop.
    rewrite Hstep, Hterm. unfold more_lines. rewrite Hs1.
    replace (script_offset st1 <? len outer) with true; [reflexivity|].
    symmetry. apply Z.ltb_lt. exact Hmore.
Qed.

End Exec.

(* ------------------------------------------------------------------ *)
(** ** The definitions at work on concrete scripts *)

(** The lines a run of the second example script hands to the line
    processor: the jump skips the failing command and the label. *)
Example demo_skip_run :
  option_map (fun v => (map (fun e => cstr (fst e)) (fst (fst v)),
                        snd (fst v)))
    (process_script_visits 20 (script_exec_line (demo_system (ret 0)))
       terminate_on_failure
       (demo_state (Some (demo_image demo_skip_script)) 0))
  = Some ([bytes "#!ipxe"; bytes "goto end"; bytes "echo done"], 0).
Proof. vm_compute. reflexivity. Qed.

(** The script of the specification that jumps back to its own start is
    still running after two hundred iterations. *)
Example demo_loop_run :
  script_exec (demo_system (ret 0)) 200 (demo_image demo_loop_script)
    (demo_state None 0)
  = None.
Proof. vm_compute. reflexivity. Qed.

Lemma demo_plain_system_advancing : advancing demo_plain_system.
Proof.
  intros line st. unfold demo_plain_system.
  destruct (list_eq_dec Byte.byte_eq_dec (cstr line) (bytes "false")).
  - exists 1, st. split; [reflexivity|]. split; [reflexivity|lia].
  - exists 0, st. split; [reflexivity|]. split; [reflexivity|lia].
Qed.

Lemma script_exec_restores_cursor_witness :
  let inner := demo_image demo_inner_script in
  let outer := demo_image demo_outer_script in
  let boot := script_exec demo_plain_system 40 inner in
  (exists rc st',
      boot (demo_state (Some outer) 12) = Some (rc, st') /\
      script st' = Some outer /\ script_offset st' = 12) /\
  (exists rc st1,
      process_script_step (script_exec_line (demo_system boot))
        (demo_state (Some outer) 7) = Some (rc, st1) /\
      script st1 = Some outer /\
      script_offset st1 = lines_size [bytes "#!ipxe"; bytes "boot"]).
Proof.
  intros inner outer boot. split.
  - destruct (proj1 (proj2 script_exec_restores_cursor)
                demo_plain_system 40%nat inner
                (demo_state (Some outer) 12)) as [rc [st' E]].
    + vm_compute. reflexivity.
    + exact demo_plain_system_advancing.
    + vm_compute. reflexivity.
    + exists rc, st'. split; [exact E|].
      exact (proj1 script_exec_restores_cursor _ _ _ _ _ _ E).
  - eexists. eexists. split; [vm_compute; reflexivity|].
    match goal with
    | |- script ?s1 = _ /\ _ =>
        pose proof (proj2 (proj2 script_exec_restores_cursor)
                      demo_plain_system 40%nat inner (demo_system boot)
                      outer (demo_state (Some outer) 7)
                      [bytes "#!ipxe"] (bytes "boot") [bytes "echo after"]
                      1 s1) as H
    end.
    destruct H as [H1 [H2 _]]; try (vm_compute; reflexivity).
    split; [exact H1 | exact H2].
Defined.

Lemma goto_exec_first_label_witness :
  let s := demo_image demo_skip_script in
  let st := demo_state (Some s) 16 in
  let argv := [c_literal "goto"; c_literal "end"] in
  exists ls raw after st',
    split_lines (data s) = ls ++ raw :: after /\
    Forall (fun l => ~ is_label_line (c_literal "end") l) ls /\
    is_label_line (c_literal "end") raw /\
    goto_exec 64 argv st = Some (0, st') /\
    script st' = Some s /\
    script_offset st' = lines_size ls + Z.of_nat (length raw) + 1 /\
    (script_offset st' < len s ->
     exists next after',
       after = next :: after' /\
       forall process_line,
         process_script_step process_line st'
         = process_line (next ++ [NUL])
             (set_script_offset
                (script_offset st' + Z.of_nat (length next) + 1) st')).
Proof.
  intros s st argv.
  apply (goto_exec_first_label 64 argv 1 (world st) (c_literal "end") s st).
  - reflexivity.
  - vm_compute. reflexivity.
  - reflexivity.
  - reflexivity.
  - exists (bytes ":end"). split; [vm_compute; tauto | reflexivity].
  - vm_compute. reflexivity.
Defined.

Lemma goto_exec_label_not_found_witness :
  let s := demo_image demo_skip_script in
  let st := demo_state (Some s) 16 in
  exists st',
    goto_exec 64 [c_literal "goto"; c_literal "start"] st
    = Some (- ENOENT, st') /\
    - ENOENT <> 0 /\
    script_offset st' = 16 /\
    script st' = Some s /\
    world st' = [].
Proof.
  intros s st.
  apply (goto_exec_label_not_found 64 [c_literal "goto"; c_literal "start"]
           1 (world st) (c_literal "start") s st).
  - reflexivity.
  - vm_compute. reflexivity.
  - reflexivity.
  - reflexivity.
  - intros l Hin. vm_compute in Hin.
    repeat (destruct Hin as [<-|Hin]; [vm_compute; discriminate|]).
    contradiction.
  - vm_compute. reflexivity.
Defined.



Lemma process_script_empty_script_witness :
  let s := demo_image [] in
  let st := demo_state (Some s) 9 in
  process_script_visits 1 report_offset terminate_on_failure st
  = Some ([([NUL], 1)], 1, set_script_offset 1 st) /\
  process_script 1 report_offset terminate_on_failure st
  = Some (1, set_script_offset 1 st).
Proof.
  intros s st.
  apply (process_script_empty_script s st (set_script_offset 1 st)
           report_offset terminate_on_failure 1 0).
  - reflexivity.
  - reflexivity.
  - vm_compute. reflexivity.
  - reflexivity.
  - reflexivity.
  - vm_compute. discriminate.
Defined.

(** C5 as stated fails.  On the script of length 0 the line processor is
    called: the record of the walk holds one visit, of the empty line. *)
Lemma empty_script_is_visited :
  (let s := demo_image [] in
   let st := demo_state (Some s) 0 in
   len s = 0 /\
   process_script_visits 1 (fun _ => ret 0) terminate_on_failure st
   = Some ([([NUL], 0)], 0, set_script_offset 1 st)) /\
  ~ (forall (s : image) (st : state) (process_line : list byte -> M Z)
            (terminate : Z -> bool) (fuel : nat)
            (tr : list (list byte * Z)) (rc : Z) (st' : state),
        script st = Some s ->
        len s = 0 ->
        process_script_visits fuel process_line terminate st
        = Some (tr, rc, st') ->
        tr = []).
Proof.
  split.
  - split; [reflexivity | vm_compute; reflexivity].
  - intros H.
    specialize (H (demo_image [])
                  (demo_state (Some (demo_image [])) 0)
                  (fun _ => ret 0) terminate_on_failure 1%nat
                  [([NUL], 0)] 0
                  (set_script_offset 1
                     (demo_state (Some (demo_image [])) 0))
                  eq_refl eq_refl).
    assert (Hrun :
              process_script_visits 1 (fun _ => ret 0) terminate_on_failure
                (demo_state (Some (demo_image [])) 0)
              = Some ([([NUL], 0)], 0,
                      set_script_offset 1
                        (demo_state (Some (demo_image [])) 0)))
      by (vm_compute; reflexivity).
    specialize (H Hrun). discriminate H.
Qed.

Lemma process_script_result_witness :
  let st := demo_state (Some (demo_image demo_inner_script)) 0 in
  exists rc st' tr line,
    process_script 40 (script_exec_line demo_plain_system)
      terminate_on_failure st = Some (rc, st') /\
    process_script_visits 40 (script_exec_line demo_plain_system)
      terminate_on_failure st = Some (tr ++ [(line, rc)], rc, st') /\
    Forall (fun v => terminate_on_failure (snd v) = false) tr /\
    (terminate_on_failure rc = true \/
     (terminate_on_failure rc = false /\ exhausted st')).
Proof.
  intros st.
  destruct (proj2 process_script_result (script_exec_line demo_plain_system)
              terminate_on_failure (demo_image demo_inner_script) st
              40%nat) as [rc [st' E]].
  - reflexivity.
  - vm_compute. reflexivity.
  - apply script_exec_line_advancing, demo_plain_system_advancing.
  - vm_compute. reflexivity.
  - destruct (proj1 process_script_result _ _ _ _ _ _ E)
      as [tr [line H]].
    exists rc, st', tr, line. split; [exact E | exact H].
Defined.

Lemma goto_exec_not_in_script_witness :
  let st := demo_state None 5 in
  exists st',
    goto_exec 64 [c_literal "goto"; c_literal "end"] st
    = Some (- ENOTTY, st') /\
    - ENOTTY <> 0 /\
    script st' = None /\
    script_offset st' = 5 /\
    goto_label st' = None.
Proof.
  intros st.
  apply (goto_exec_not_in_script 64 [c_literal "goto"; c_literal "end"]
           1 (world st) st); reflexivity.
Defined.

Lemma script_load_reject_unchanged_witness :
  let img := mk_image (bytes "#!ipxe") None in
  fst (script_load img) <> 0 /\ snd (script_load img) = img.
Proof.
  intros img.
  assert (H : fst (script_load img) <> 0) by (vm_compute; discriminate).
  split; [exact H|].
  exact (proj1 (script_load_reject_unchanged img) H).
Defined.

Lemma script_load_reject_same_status_witness :
  let short := mk_image (bytes "#!ipxe") None in
  let bad := mk_image (bytes "#!ipxeX") None in
  fst (script_load short) = - ENOEXEC /\
  fst (script_load bad) = - ENOEXEC /\
  fst (script_load short) = fst (script_load bad).
Proof.
  intros short bad.
  apply (script_load_reject_same_status short bad).
  - vm_compute. reflexivity.
  - vm_compute. discriminate.
  - intros [_ [c [H1 H2]]]. vm_compute in H1. inversion H1; subst c.
    vm_compute in H2. discriminate.
Defined.

Lemma script_load_accepts_iff_witness :
  let img := mk_image (bytes "#!gpxe" ++ [NL] ++ bytes "echo hi") None in
  fst (script_load img) = 0 /\
  type (snd (script_load img)) = Some script_image_type /\
  data (snd (script_load img)) = data img.
Proof.
  intros img.
  destruct (script_load_accepts_iff img) as [_ [_ [Hiff [Htag _]]]].
  assert (H0 : fst (script_load img) = 0).
  { apply Hiff. split; [vm_compute; discriminate|].
    split; [right; reflexivity|].
    exists NL. split; reflexivity. }
  split; [exact H0 | exact (Htag H0)].
Defined.

(* ------------------------------------------------------------------ *)
(** ** Walks that nothing but the walker moves *)

Lemma split_lines_nil_iff (s : list byte) : split_lines s = [[]] -> s = [].
Proof.
  destruct s as [|b r]; simpl; [reflexivity|].
  destruct (Byte.eqb b NL).
  - intros H. inversion H as [H0]. exfalso.
    exact (split_lines_not_nil r H0).
  - destruct (split_lines r); discriminate.
Qed.

Lemma visited_lines_no_NL (l : list byte) :
  ~ In NL l -> visited_lines l = [l].
Proof.
  intros H. unfold visited_lines. rewrite (split_lines_no_NL l H).
  reflexivity.
Qed.

Lemma visited_lines_final_NL (l : list byte) :
  ~ In NL l -> visited_lines (l ++ [NL]) = [l].
Proof.
  intros H. unfold visited_lines. rewrite (split_lines_app_NL l [] H).
  reflexivity.
Qed.

Lemma visited_lines_cons (l r : list byte) :
  ~ In NL l -> r <> [] ->
  visited_lines (l ++ NL :: r) = l :: visited_lines r.
Proof.
  intros H Hr. unfold visited_lines. rewrite (split_lines_app_NL l r H).
  destruct (split_lines r) as [|l' r'] eqn:E.
  - exfalso. exact (split_lines_not_nil r E).
  - simpl. destruct l' as [|b l'']; [|reflexivity].
    destruct r' as [|x r'']; [|reflexivity].
    exfalso. apply Hr. apply split_lines_nil_iff. exact E.
Qed.

(** How the lines a walk goes through unfold at the cursor. *)
Lemma visited_lines_cases (suf : list byte) :
  (visited_lines suf = [line_of suf] /\
   (suf = line_of suf \/ suf = line_of suf ++ [NL])) \/
  (exists r, r <> [] /\ suf = line_of suf ++ NL :: r /\
             visited_lines suf = line_of suf :: visited_lines r).
Proof.
  destruct (line_of_cases suf) as [[_ Hl]|[r [_ Hl]]].
  - left. split; [|left; symmetry; exact Hl].
    rewrite <- Hl at 1. rewrite Hl. apply visited_lines_no_NL.
    rewrite <- Hl. apply line_of_no_NL.
  - destruct r as [|b r].
    + left. split; [|right; exact Hl].
      rewrite Hl at 1. apply visited_lines_final_NL, line_of_no_NL.
    + right. exists (b :: r). split; [discriminate|]. split; [exact Hl|].
      rewrite Hl at 1. apply visited_lines_cons;
        [apply line_of_no_NL | discriminate].
Qed.

Lemma visited_lines_not_nil (s : list byte) : visited_lines s <> [].
Proof.
  unfold visited_lines. destruct (split_lines s) eqn:E; [|discriminate].
  exfalso. exact (split_lines_not_nil s E).
Qed.

Section PlainWalks.

Context {P : Platform}.

Variable s : image.
Hypothesis Hfit : fits_size_t s.

(** One iteration over a cursor-preserving line processor. *)
Lemma step_cursor_preserving
    (process_line : list byte -> M Z) (st : state) (pre suf : list byte)
    (rc : Z) (st1 : state) :
  cursor_preserving process_line ->
  script st = Some s ->
  data s = pre ++ suf ->
  script_offset st = Z.of_nat (length pre) ->
  process_line (line_of suf ++ [NUL])
    (set_script_offset
       (script_offset st + Z.of_nat (length (line_of suf)) + 1) st)
  = Some (rc, st1) ->
  script st1 = Some s /\
  script_offset st1
  = Z.of_nat (length pre) + Z.of_nat (length (line_of suf)) + 1 /\
  len s = Z.of_nat (length pre) + Z.of_nat (length suf).
Proof.
  intros Hcp Hs Hd Ho Hpl. destruct (Hcp _ _ _ _ Hpl) as [E1 E2].
  simpl in E1, E2. split; [congruence|]. split; [lia|].
  unfold len. rewrite Hd, length_app. lia.
Qed.

(** The visits of a completed walk over a cursor-preserving line processor
    are the lines of the script from the cursor on, in order; when the walk
    was not stopped, they are all of them. *)
Lemma visits_in_order_loop
    (process_line : list byte -> M Z) (terminate : Z -> bool) :
  cursor_preserving process_line ->
  forall (fuel : nat) (st : state) (pre suf : list byte)
         (tr : list (list byte * Z)) (rc : Z) (st' : state),
    script st = Some s ->
    data s = pre ++ suf ->
    script_offset st = Z.of_nat (length pre) ->
    process_script_loop_visits fuel process_line terminate st
    = Some (tr, rc, st') ->
    exists rest,
      map (fun l => l ++ [NUL]) (visited_lines suf) = map fst tr ++ rest /\
      (terminate rc = false -> rest = []).
Proof.
  intros Hcp. induction fuel as [|fuel IH];
    intros st pre suf tr rc st' Hs Hd Ho H; simpl in H.
  - discriminate.
  - rewrite (next_line_at s st pre suf Hs Hfit Hd Ho) in H.
    destruct (process_line _ _) as [[rc1 st1]|] eqn:Epl; [|discriminate].
    destruct (step_cursor_preserving process_line st pre suf rc1 st1
                Hcp Hs Hd Ho Epl) as [Hs1 [Ho1 Hlen]].
    destruct (terminate rc1) eqn:Et.
    + inversion H; subst.
      destruct (visited_lines_cases suf) as [[Hv _]|[r [_ [_ Hv]]]];
        rewrite Hv; simpl; eexists; (split; [reflexivity|]); congruence.
    + unfold more_lines in H. rewrite Hs1 in H.
      destruct (visited_lines_cases suf)
        as [[Hv Hsuf]|[r [Hr [Hsuf Hv]]]]; rewrite Hv.
      * assert (Hend : (script_offset st1 <? len s) = false).
        { apply Z.ltb_ge. destruct Hsuf as [E|E];
            rewrite E in Hlen at 1;
            [|rewrite length_app in Hlen; simpl length in Hlen]; lia. }
        rewrite Hend in H. inversion H; subst. exists []. auto.
      * assert (Hmore : (script_offset st1 <? len s) = true).
        { apply Z.ltb_lt. rewrite Hsuf in Hlen at 1.
          rewrite length_app in Hlen. simpl length in Hlen.
          destruct r; [contradiction|simpl length in Hlen]. lia. }
        rewrite Hmore in H.
        destruct (process_script_loop_visits fuel process_line terminate st1)
          as [[[tr1 rc'] st1']|] eqn:El; [|discriminate].
        inversion H; subst.
        destruct (IH st1 (pre ++ line_of suf ++ [NL]) r tr1 rc st' Hs1)
          as [rest [E1 E2]]; auto.
        -- rewrite Hd. rewrite Hsuf at 1. rewrite <- !app_assoc. reflexivity.
        -- rewrite Ho1, !length_app. simpl length. lia.
        -- exists rest. simpl. rewrite E1. auto.
Qed.

(** A walk over a line processor with a status function returns what
    [walk_status] computes on the lines from the cursor on. *)
Lemma walk_answers_loop
    (process_line : list byte -> M Z) (status_of : list byte -> Z)
    (terminate : Z -> bool) :
  answers_with process_line status_of ->
  forall (fuel : nat) (st : state) (pre suf : list byte),
    script st = Some s ->
    data s = pre ++ suf ->
    script_offset st = Z.of_nat (length pre) ->
    Z.of_nat (length suf) < Z.of_nat fuel ->
    exists st',
      process_script_loop fuel process_line terminate st
      = Some (walk_status status_of terminate (visited_lines suf), st').
Proof.
  intros Ha. induction fuel as [|fuel IH]; intros st pre suf Hs Hd Ho Hf.
  - lia.
  - simpl process_script_loop. unfold process_script_step, bind.
    rewrite (next_line_at s st pre suf Hs Hfit Hd Ho).
    destruct (Ha (line_of suf ++ [NUL])
                (set_script_offset
                   (script_offset st + Z.of_nat (length (line_of suf)) + 1)
                   st)) as [st1 [Epl [E1 E2]]].
    rewrite Epl. simpl in E1, E2.
    assert (Hs1 : script st1 = Some s) by congruence.
    assert (Hlen : len s = Z.of_nat (length pre) + Z.of_nat (length suf)).
    { unfold len. rewrite Hd, length_app. lia. }
    unfold more_lines. rewrite Hs1.
    destruct (visited_lines_cases suf)
      as [[Hv Hsuf]|[r [Hr [Hsuf Hv]]]]; rewrite Hv; simpl walk_status.
    + destruct (terminate (status_of (line_of suf ++ [NUL]))); [eauto|].
      replace (script_offset st1 <? len s) with false; [eauto|].
      symmetry. apply Z.ltb_ge. destruct Hsuf as [E|E];
        rewrite E in Hlen at 1;
        [|rewrite length_app in Hlen; simpl length in Hlen]; lia.
    + destruct (terminate (status_of (line_of suf ++ [NUL]))); [eauto|].
      assert (Hsl : Z.of_nat (length suf)
                    = Z.of_nat (length (line_of suf)) + 1
                      + Z.of_nat (length r)).
      { rewrite Hsuf at 1. rewrite length_app. simpl length. lia. }
      replace (script_offset st1 <? len s) with true.
      * destruct (visited_lines r) as [|l0 r0] eqn:Evr.
        { exfalso. exact (visited_lines_not_nil r Evr). }
        rewrite <- Evr. apply (IH st1 (pre ++ line_of suf ++ [NL]) r); auto.
        -- rewrite Hd. rewrite Hsuf at 1. rewrite <- !app_assoc. reflexivity.
        -- rewrite E2, Ho, !length_app. simpl length. lia.
        -- lia.
      * symmetry. apply Z.ltb_lt.
        destruct r; [contradiction|simpl length in Hsl]. lia.
Qed.

End PlainWalks.

Lemma char_at_line_buffer (l : list byte) : char_at (l ++ [NUL]) 0 = hd NUL l.
Proof. destruct l; reflexivity. Qed.

(** The status function of [script_exec_line]: 0 on a label line, the
    status of the command on any other line. *)
Lemma walk_status_first_failure
    (status_of : list byte -> Z) (lines : list (list byte)) :
  walk_status
    (fun b => if Byte.eqb (char_at b 0) COLON then 0 else status_of b)
    terminate_on_failure lines
  = first_failure status_of lines.
Proof.
  induction lines as [|l r IH]; [reflexivity|].
  simpl walk_status. simpl first_failure. rewrite char_at_line_buffer.
  destruct (Byte.eqb (hd NUL l) COLON).
  - change (terminate_on_failure 0) with false. cbv iota.
    destruct r; [reflexivity | exact IH].
  - unfold terminate_on_failure at 1.
    destruct (status_of (l ++ [NUL]) =? 0) eqn:E; simpl negb; cbv iota.
    + apply Z.eqb_eq in E. destruct r; [exact E | exact IH].
    + reflexivity.
Qed.

Section PlainExec.

Context {P : Platform}.

Lemma script_exec_line_cursor_preserving (system : list byte -> M Z) :
  cursor_preserving system -> cursor_preserving (script_exec_line system).
Proof.
  intros Hcp line st rc st'. unfold script_exec_line.
  destruct (Byte.eqb (char_at line 0) COLON).
  - intros H. inversion H; subst. auto.
  - destruct (system line st) as [[rc1 st1]|] eqn:E; [|discriminate].
    destruct (Hcp _ _ _ _ E) as [E1 E2].
    destruct (negb (rc1 =? 0)); intros H; inversion H; subst; simpl; auto.
Qed.

Lemma script_exec_line_answers
    (system : list byte -> M Z) (status_of : list byte -> Z) :
  answers_with system status_of ->
  answers_with (script_exec_line system)
    (fun b => if Byte.eqb (char_at b 0) COLON then 0 else status_of b).
Proof.
  intros Ha line st. unfold script_exec_line.
  destruct (Byte.eqb (char_at line 0) COLON).
  - exists st. auto.
  - destruct (Ha line st) as [st1 [E [E1 E2]]]. rewrite E.
    destruct (status_of line =? 0) eqn:Ez; simpl negb; cbv iota.
    + apply Z.eqb_eq in Ez. rewrite Ez. exists st1. auto.
    + eexists. split; [reflexivity|]. simpl. auto.
Qed.

(** The status [script_exec] returns for a dispatcher with a status
    function. *)
Lemma script_exec_answers
    (system : list byte -> M Z) (status_of : list byte -> Z)
    (fuel : nat) (img : image) (st : state) :
  answers_with system status_of ->
  fits_size_t img ->
  len img < Z.of_nat fuel ->
  exists st',
    script_exec system fuel img st
    = Some (first_failure status_of (visited_lines (data img)), st').
Proof.
  intros Ha Hfit Hf. unfold script_exec, process_script.
  destruct (walk_answers_loop img Hfit (script_exec_line system) _
              terminate_on_failure
              (script_exec_line_answers system status_of Ha) fuel
              (set_script_offset 0
                 (set_script (Some img)
                    (set_world (unregister_image img (world st)) st)))
              [] (data img)) as [st1 E]; auto.
  rewrite E, walk_status_first_failure. eauto.
Qed.


(** X1: a completed walk over a line processor that leaves the cursor alone
    (a dispatcher without goto; a command that runs a nested script counts,
    since [script_exec] restores the cursor) visits the lines of the script
    in file order, none skipped and none twice, with an empty line between
    two newlines visited like any other and nothing visited after a final
    newline; a walk that was not stopped has visited them all. *)
Theorem process_script_visits_in_order
    (process_line : list byte -> M Z) (terminate : Z -> bool)
    (s : image) (st : state) (fuel : nat)
    (tr : list (list byte * Z)) (rc : Z) (st' : state) :
  cursor_preserving process_line ->
  script st = Some s ->
  fits_size_t s ->
  process_script_visits fuel process_line terminate st = Some (tr, rc, st') ->
  exists rest,
    map (fun l => l ++ [NUL]) (visited_lines (data s)) = map fst tr ++ rest /\
    (terminate rc = false -> rest = []).
Proof.
  intros Hcp Hs Hfit H. unfold process_script_visits in H.
  apply (visits_in_order_loop s Hfit process_line terminate Hcp fuel
           (set_script_offset 0 st) [] (data s) tr rc st'); auto.
Qed.

(** X2: for a dispatcher whose status is a function of the command line and
    which leaves the cursor alone, [script_exec] returns the status of the
    first command that fails, label lines not being run, and 0 when no
    command fails. *)
Theorem script_exec_first_failure
    (system : list byte -> M Z) (status_of : list byte -> Z)
    (fuel : nat) (img : image) (st : state) :
  answers_with system status_of ->
  fits_size_t img ->
  len img < Z.of_nat fuel ->
  exists st',
    script_exec system fuel img st
    = Some (first_failure status_of (visited_lines (data img)), st') /\
    script st' = script st /\
    script_offset st' = script_offset st.
Proof.
  intros Ha Hfit Hf.
  destruct (script_exec_answers system status_of fuel img st Ha Hfit Hf)
    as [st' E].
  exists st'. split; [exact E|].
  exact (script_exec_frame system fuel img st _ st' E).
Qed.


End PlainExec.

(* ------------------------------------------------------------------ *)
(** ** A final newline *)

Lemma split_lines_final_NL (t : list byte) :
  split_lines (t ++ [NL]) = split_lines t ++ [[]].
Proof.
  induction t as [|c t IH]; [reflexivity|].
  simpl. destruct (Byte.eqb c NL).
  - rewrite IH. reflexivity.
  - rewrite IH. destruct (split_lines t) as [|l ls] eqn:E.
    + exfalso. exact (split_lines_not_nil t E).
    + reflexivity.
Qed.

Lemma split_lines_snoc (s0 : list byte) (b : byte) :
  b <> NL ->
  exists ls l, split_lines (s0 ++ [b]) = ls ++ [l] /\ l <> [].
Proof.
  intros Hb. induction s0 as [|c s0 IH]; simpl.
  - rewrite (byte_eqb_neq b NL Hb). exists [], [b]. split;
      [reflexivity | discriminate].
  - destruct IH as [ls [l [E Hl]]]. rewrite E.
    destruct (Byte.eqb c NL).
    + exists ([] :: ls), l. auto.
    + destruct ls as [|x ls]; simpl.
      * exists [], (c :: l). split; [reflexivity | discriminate].
      * exists ((c :: x) :: ls), l. auto.
Qed.

Lemma drop_final_empty_snoc (ls : list (list byte)) (l : list byte) :
  l <> [] ->
  drop_final_empty (ls ++ [l]) = ls ++ [l] /\
  drop_final_empty ((ls ++ [l]) ++ [[]]) = ls ++ [l].
Proof.
  intros Hl. induction ls as [|x ls [IH1 IH2]]; simpl.
  - destruct l; [contradiction|]. auto.
  - rewrite IH1, IH2.
    destruct x; destruct (ls ++ [l]) eqn:E; auto;
      destruct ls; discriminate.
Qed.

(** A newline after the last line changes nothing to the lines a walk goes
    through. *)
Lemma visited_lines_final_newline (s0 : list byte) (b : byte) :
  b <> NL ->
  visited_lines ((s0 ++ [b]) ++ [NL]) = visited_lines (s0 ++ [b]).
Proof.
  intros Hb. unfold visited_lines. rewrite split_lines_final_NL.
  destruct (split_lines_snoc s0 b Hb) as [ls [l [E Hl]]]. rewrite E.
  destruct (drop_final_empty_snoc (tl ls) l Hl) as [E1 E2].
  destruct ls as [|x ls]; simpl in *.
  - reflexivity.
  - rewrite E1, E2. reflexivity.
Qed.

(* ------------------------------------------------------------------ *)
(** ** What a search can touch *)

Section SearchFrame.

Context {P : Platform}.

Lemma next_line_state (st : state) (cmdbuf : list byte) (st0 : state) :
  next_line st = Some (cmdbuf, st0) ->
  exists o, st0 = set_script_offset o st.
Proof.
  unfold next_line. destruct (script st); [|discriminate].
  intros H. inversion H. eexists. reflexivity.
Qed.

Lemma goto_find_label_state (line : list byte) (st : state)
    (rc : Z) (st' : state) :
  goto_find_label line st = Some (rc, st') -> st' = st.
Proof.
  unfold goto_find_label.
  destruct (negb (Byte.eqb (char_at line 0) COLON)).
  - intros H. inversion H. reflexivity.
  - destruct (goto_label st) as [label|]; [|discriminate].
    destruct (negb (strcmp label (tl line) =? 0));
      intros H; inversion H; reflexivity.
Qed.

(** The search loop writes [script_offset] and nothing else. *)
Lemma goto_loop_state (terminate : Z -> bool) (fuel : nat) :
  forall (st : state) (rc : Z) (st' : state),
    process_script_loop fuel goto_find_label terminate st = Some (rc, st') ->
    exists o, st' = set_script_offset o st.
Proof.
  induction fuel as [|fuel IH]; intros st rc st' H; simpl in H.
  - discriminate.
  - unfold process_script_step, bind in H.
    destruct (next_line st) as [[cmdbuf st0]|] eqn:En; [|discriminate].
    destruct (next_line_state st cmdbuf st0 En) as [o ->].
    destruct (goto_find_label cmdbuf (set_script_offset o st))
      as [[rc1 st1]|] eqn:Eg; [|discriminate].
    apply goto_find_label_state in Eg. subst st1.
    destruct (terminate rc1).
    + inversion H; subst. eauto.
    + destruct (more_lines (set_script_offset o st)) as [[|]|];
        try discriminate.
      * destruct (IH _ _ _ H) as [o' ->]. exists o'. reflexivity.
      * inversion H; subst. eauto.
Qed.

(** X4: whatever its arguments and whatever the state, a call of
    [goto_exec] that returns leaves the active script in place, and a call
    that returns a non-zero status (options refused, no script active, label
    not found) leaves [script_offset] as it was: only a successful jump
    moves the cursor. *)
Theorem goto_exec_failure_frame
    (fuel : nat) (argv : list (list byte)) (st : state)
    (rc : Z) (st' : state) :
  goto_exec fuel argv st = Some (rc, st') ->
  script st' = script st /\
  (rc <> 0 -> script_offset st' = script_offset st).
Proof.
  unfold goto_exec.
  destruct (parse_options argv (world st)) as [[rc0 optind] w].
  destruct (negb (rc0 =? 0)).
  - intros H. inversion H; subst. simpl. auto.
  - simpl script. destruct (script st) as [s|] eqn:Es.
    + unfold process_script.
      destruct (process_script_loop fuel goto_find_label
                  terminate_on_success _) as [[rc1 st1]|] eqn:El;
        [|discriminate].
      destruct (goto_loop_state _ _ _ _ _ El) as [o ->].
      destruct (negb (rc1 =? 0)) eqn:En; intros H; inversion H; subst;
        simpl; split; auto.
      intros Hz. contradiction.
    + intros H. inversion H; subst. simpl. auto.
Qed.

End SearchFrame.

(* ------------------------------------------------------------------ *)
(** ** From recognition to execution *)

Lemma line_of_app_prefix (l r : list byte) :
  ~ In NL l -> line_of (l ++ r) = l ++ line_of r.
Proof.
  induction l as [|b l IH]; simpl; intros H; [reflexivity|].
  rewrite byte_eqb_neq by (intros ->; apply H; auto).
  rewrite IH; auto.
Qed.

Section LoadExec.

Context {P : Platform}.

(** X5: the verdict of [script_load] depends on the first seven bytes of
    the blob and on nothing else: not on the rest of the data, not on the
    type the image had. *)
Theorem script_load_first_seven_bytes (a b : image) :
  firstn 7 (data a) = firstn 7 (data b) ->
  fst (script_load a) = fst (script_load b).
Proof.
  intros H.
  assert (Hlen : len a < 7 <-> len b < 7).
  { assert (E : length (firstn 7 (data a)) = length (firstn 7 (data b)))
      by (rewrite H; reflexivity).
    rewrite !length_firstn in E. unfold len. lia. }
  assert (H6 : firstn 6 (data a) = firstn 6 (data b)).
  { change 6%nat with (Nat.min 6 7).
    rewrite <- !firstn_firstn, H. reflexivity. }
  assert (Hn : nth_error (data a) 6 = nth_error (data b) 6).
  { assert (E : nth_error (firstn 7 (data a)) 6
                = nth_error (firstn 7 (data b)) 6) by (rewrite H; reflexivity).
    rewrite !nth_error_firstn in E. exact E. }
  destruct (script_load_cases a)
    as [[Hl Hr]|[[Hl [Hbad Hr]]|[Hl [Hsig [Hsep Hr]]]]];
    destruct (script_load_cases b)
      as [[Hl' Hr']|[[Hl' [Hbad' Hr']]|[Hl' [Hsig' [Hsep' Hr']]]]];
    rewrite Hr, Hr'; simpl; try reflexivity; try lia; exfalso.
  - apply Hbad. rewrite H6, Hn. auto.
  - apply Hbad'. rewrite <- H6, <- Hn. auto.
Qed.

(** X6: the first line of an accepted script, which starts with the
    signature, is not a label line: the first iteration of [script_exec]'s
    walk hands it, signature included, to the command dispatcher, and its
    status decides like that of any command whether the walk goes on. *)
Theorem script_exec_runs_magic_line
    (system : list byte -> M Z) (img : image) (st : state) :
  fst (script_load img) = 0 ->
  fits_size_t img ->
  script st = Some (snd (script_load img)) ->
  script_offset st = 0 ->
  exists line,
    line = line_of (data img) /\
    (firstn 6 line = bytes "#!ipxe" \/ firstn 6 line = bytes "#!gpxe") /\
    process_script_step (script_exec_line system) st
    = match system (line ++ [NUL])
              (set_script_offset (Z.of_nat (length line) + 1) st) with
      | None => None
      | Some (rc, st1) =>
          if negb (rc =? 0)
          then Some (rc, set_world
                           (printf (aborting_message (line ++ [NUL]))
                              (world st1)) st1)
          else Some (0, st1)
      end.
Proof.
  intros Hacc Hfit Hs Ho.
  destruct (script_load_cases img)
    as [[Hl Hr]|[[Hl [Hbad Hr]]|[Hl [Hsig [Hsep Hr]]]]];
    rewrite Hr in Hacc; simpl in Hacc;
    try (exfalso; apply ENOEXEC_nonzero; lia).
  rewrite Hr in Hs. simpl in Hs.
  exists (line_of (data img)). split; [reflexivity|].
  assert (Hline : exists magic rest,
             (magic = bytes "#!ipxe" \/ magic = bytes "#!gpxe") /\
             line_of (data img) = magic ++ rest).
  { destruct Hsig as [E|E];
      [exists (bytes "#!ipxe") | exists (bytes "#!gpxe")];
      exists (line_of (skipn 6 (data img)));
      (split; [auto|]);
      rewrite <- (firstn_skipn 6 (data img)) at 1; rewrite E;
      apply line_of_app_prefix; vm_compute;
      intros H; repeat (destruct H as [H|H]; [discriminate|]); exact H. }
  destruct Hline as [magic [rest [Hmagic Hline]]].
  split.
  { rewrite Hline. destruct Hmagic as [-> | ->]; [left | right];
      reflexivity. }
  unfold process_script_step, bind.
  rewrite (next_line_at (set_type script_image_type img) st [] (data img));
    auto.
  rewrite Ho. simpl Z.add.
  unfold script_exec_line.
  replace (Byte.eqb (char_at (line_of (data img) ++ [NUL]) 0) COLON)
    with false; [reflexivity|].
  rewrite Hline. destruct Hmagic as [-> | ->]; reflexivity.
Qed.

End LoadExec.

(* ------------------------------------------------------------------ *)
(** ** A goto inside a running script *)

Section GotoInScript.

Context {P : Platform}.

(** The iteration of [script_exec]'s walk on a line whose command is a call
    of [goto_exec]. *)
Lemma goto_line_step
    (system : list byte -> M Z) (fuel_goto : nat) (argv : list (list byte))
    (optind : nat) (w : World) (label : list byte)
    (s : image) (st : state)
    (ls : list (list byte)) (line : list byte) (after : list (list byte)) :
  script st = Some s ->
  fits_size_t s ->
  split_lines (data s) = ls ++ line :: after ->
  script_offset st = lines_size ls ->
  hd NUL line <> COLON ->
  system (line ++ [NUL]) = goto_exec fuel_goto argv ->
  parse_options argv (world st) = (0, optind, w) ->
  nth_error argv optind = Some label ->
  len s < Z.of_nat fuel_goto ->
  let st0 :=
    set_goto_label (Some label)
      (set_world w
         (set_script_offset
            (lines_size ls + Z.of_nat (length line) + 1) st)) in
  process_script_step (script_exec_line system) st
  = match find_label label (split_lines (data s)) 0 with
    | Some off' => Some (0, set_script_offset off' st0)
    | None =>
        Some (- ENOENT,
              set_world (printf (aborting_message (line ++ [NUL])) w) st0)
    end.
Proof.
  intros Hs Hfit Hsplit Ho Hcmd Hsys Hp Ha Hf st0.
  rewrite (process_script_step_at_line s st ls line after _
             Hs Hfit Hsplit Ho).
  unfold script_exec_line. rewrite char_at_line_buffer.
  rewrite (byte_eqb_neq _ _ Hcmd), Hsys.
  rewrite (goto_exec_search fuel_goto argv optind w label s
             (set_script_offset
                (lines_size ls + Z.of_nat (length line) + 1) st)
             Hs Hfit Hp Ha Hf).
  fold st0.
  destruct (find_label label (split_lines (data s)) 0) as [off'|].
  - reflexivity.
  - replace (negb (- ENOENT =? 0)) with true; [reflexivity|].
    symmetry. apply negb_true_iff, Z.eqb_neq, neg_ENOENT_nonzero.
Qed.

(** X7: when the command on a line of the running script is a goto to a
    label the script declares, the iteration ends with status 0 and the
    offset just past the first line declaring the label, whether that line
    lies before or after the goto; the walk of [script_exec] then goes on
    from there, or ends with status 0 when the label line was the last of
    the script. *)
Theorem goto_redirects_walk
    (system : list byte -> M Z) (fuel_goto : nat) (argv : list (list byte))
    (optind : nat) (w : World) (label : list byte)
    (s : image) (st : state)
    (ls : list (list byte)) (line : list byte) (after : list (list byte)) :
  script st = Some s ->
  fits_size_t s ->
  split_lines (data s) = ls ++ line :: after ->
  script_offset st = lines_size ls ->
  hd NUL line <> COLON ->
  system (line ++ [NUL]) = goto_exec fuel_goto argv ->
  parse_options argv (world st) = (0, optind, w) ->
  nth_error argv optind = Some label ->
  (exists l, In l (split_lines (data s)) /\ is_label_line label l) ->
  len s < Z.of_nat fuel_goto ->
  exists before raw rest st1,
    split_lines (data s) = before ++ raw :: rest /\
    Forall (fun l => ~ is_label_line label l) before /\
    is_label_line label raw /\
    process_script_step (script_exec_line system) st = Some (0, st1) /\
    script st1 = Some s /\
    script_offset st1 = lines_size (before ++ [raw]) /\
    (forall fuel,
        process_script_loop (S fuel) (script_exec_line system)
          terminate_on_failure st
        = if script_offset st1 <? len s
          then process_script_loop fuel (script_exec_line system)
                 terminate_on_failure st1
          else Some (0, st1)).
Proof.
  intros Hs Hfit Hsplit Ho Hcmd Hsys Hp Ha Hex Hf.
  destruct (first_label_line label _ Hex)
    as [before [raw [rest [Hlab [Hbefore Hraw]]]]].
  pose proof (goto_line_step system fuel_goto argv optind w label s st
                ls line after Hs Hfit Hsplit Ho Hcmd Hsys Hp Ha Hf) as Hstep.
  cbv zeta in Hstep.
  rewrite Hlab, (find_label_first label raw rest Hraw before 0 Hbefore)
    in Hstep.
  exists before, raw, rest. eexists.
  split; [exact Hlab|]. split; [exact Hbefore|]. split; [exact Hraw|].
  split; [exact Hstep|]. split; [exact Hs|].
  split; [rewrite lines_size_app; simpl; lia|].
  intros fuel. simpl process_script_loop. rewrite Hstep.
  change (terminate_on_failure 0) with false. cbv iota.
  unfold more_lines. simpl script. rewrite Hs. reflexivity.
Qed.

(** X8: when the command on a line of the running script is a goto to a
    label the script does not declare, the walk of [script_exec] stops at
    that line with the status [- ENOENT], after the line has been reported
    on the console; the offset is the one the walker had set before the
    command ran, the start of the line after the goto. *)
Theorem goto_missing_label_aborts
    (system : list byte -> M Z) (fuel_goto : nat) (argv : list (list byte))
    (optind : nat) (w : World) (label : list byte)
    (s : image) (st : state)
    (ls : list (list byte)) (line : list byte) (after : list (list byte))
    (fuel : nat) :
  script st = Some s ->
  fits_size_t s ->
  split_lines (data s) = ls ++ line :: after ->
  script_offset st = lines_size ls ->
  hd NUL line <> COLON ->
  system (line ++ [NUL]) = goto_exec fuel_goto argv ->
  parse_options argv (world st) = (0, optind, w) ->
  nth_error argv optind = Some label ->
  (forall l, In l (split_lines (data s)) -> ~ is_label_line label l) ->
  len s < Z.of_nat fuel_goto ->
  exists st1,
    process_script_loop (S fuel) (script_exec_line system)
      terminate_on_failure st = Some (- ENOENT, st1) /\
    script st1 = Some s /\
    script_offset st1 = lines_size (ls ++ [line]) /\
    world st1 = printf (aborting_message (line ++ [NUL])) w.
Proof.
  intros Hs Hfit Hsplit Ho Hcmd Hsys Hp Ha Hnone Hf.
  pose proof (goto_line_step system fuel_goto argv optind w label s st
                ls line after Hs Hfit Hsplit Ho Hcmd Hsys Hp Ha Hf) as Hstep.
  cbv zeta in Hstep. rewrite (find_label_none label _ Hnone) in Hstep.
  eexists. split.
  - simpl process_script_loop. rewrite Hstep.
    replace (terminate_on_failure (- ENOENT)) with true; [reflexivity|].
    symmetry. apply negb_true_iff, Z.eqb_neq, neg_ENOENT_nonzero.
  - simpl. split; [exact Hs|]. split; [|reflexivity].
    rewrite lines_size_app. simpl. lia.
Qed.

End GotoInScript.

(* ------------------------------------------------------------------ *)
(** ** The last line needs no newline *)

Section FinalNewline.

Context {P : Platform}.

(** X9: for a dispatcher whose status is a function of the command line and
    which leaves the cursor alone, a script that ends without a newline and
    the same script with a newline added at the end run to the same
    status: the bytes after the last newline are a line like the others. *)
Theorem script_exec_final_newline
    (system : list byte -> M Z) (status_of : list byte -> Z)
    (fuel : nat) (body : list byte) (b : byte)
    (t1 t2 : option image_type) (st : state) :
  answers_with system status_of ->
  b <> NL ->
  let open := {| data := body ++ [b]; type := t1 |} in
  let closed := {| data := (body ++ [b]) ++ [NL]; type := t2 |} in
  fits_size_t closed ->
  len closed < Z.of_nat fuel ->
  exists rc st1 st2,
    script_exec system fuel open st = Some (rc, st1) /\
    script_exec system fuel closed st = Some (rc, st2).
Proof.
  intros Ha Hb open closed Hfit Hf.
  assert (Hlen : len closed = len open + 1).
  { unfold len, closed, open. simpl data. rewrite (length_app (body ++ [b])).
    simpl length. lia. }
  assert (Hfit1 : fits_size_t open) by (unfold fits_size_t in *; lia).
  destruct (script_exec_answers system status_of fuel open st Ha Hfit1)
    as [st1 E1]; [lia|].
  destruct (script_exec_answers system status_of fuel closed st Ha Hfit Hf)
    as [st2 E2].
  exists (first_failure status_of (visited_lines (data open))), st1, st2.
  split; [exact E1|]. rewrite E2. unfold closed, open. simpl data.
  rewrite (visited_lines_final_newline body b Hb). reflexivity.
Qed.

End FinalNewline.

(* ------------------------------------------------------------------ *)
(** ** Exact matching of labels *)

Section LabelMatch.

Context {P : Platform}.

(** X10: [goto_find_label] compares the whole line with the label: on text
    without NUL bytes it answers 0 exactly when the line is a colon followed
    by the label, byte for byte (no prefix matching, no trimming, no case
    folding), answers [- ENOENT] on any other line, and never changes the
    state. *)
Theorem goto_find_label_exact (name raw : list byte) (st : state) :
  ~ In NUL name ->
  ~ In NUL raw ->
  goto_label st = Some (name ++ [NUL]) ->
  (raw = COLON :: name ->
   goto_find_label (raw ++ [NUL]) st = Some (0, st)) /\
  (raw <> COLON :: name ->
   goto_find_label (raw ++ [NUL]) st = Some (- ENOENT, st)) /\
  - ENOENT <> 0.
Proof.
  intros Hname Hraw Hl.
  rewrite (goto_find_label_line (name ++ [NUL]) raw st Hl).
  assert (Hiff : is_label_line (name ++ [NUL]) raw <-> raw = COLON :: name).
  { unfold is_label_line.
    rewrite cstr_app_NUL, (cstr_no_NUL name Hname), (cstr_no_NUL raw Hraw).
    tauto. }
  destruct (is_label_line_dec (name ++ [NUL]) raw) as [H|H].
  - split; [reflexivity|]. split; [|apply neg_ENOENT_nonzero].
    intros Hne. exfalso. apply Hne, Hiff, H.
  - split; [|split; [reflexivity | apply neg_ENOENT_nonzero]].
    intros He. exfalso. apply H, Hiff, He.
Qed.

End LabelMatch.

(* ------------------------------------------------------------------ *)
(** ** A backward goto *)

Lemma app_tail_split (A : Type) (front : list A) (g : A)
    (r1 : list A) (l x : A) (r2 : list A) :
  front ++ [g] = r1 ++ l :: x :: r2 ->
  exists q, x :: r2 = q ++ [g] /\ front = r1 ++ l :: q.
Proof.
  intros H.
  destruct (exists_last (l:=x :: r2)) as [q [z Hq]]; [discriminate|].
  rewrite Hq in H.
  change (r1 ++ l :: q ++ [z]) with (r1 ++ (l :: q) ++ [z]) in H.
  rewrite app_assoc in H. apply app_inj_tail in H. destruct H as [H1 H2].
  subst z. exists q. split; [exact Hq | exact H1].
Qed.

Lemma label_line_starts_with_colon (label raw : list byte) :
  is_label_line label raw -> hd NUL raw = COLON.
Proof.
  unfold is_label_line. destruct raw as [|b r]; simpl; [discriminate|].
  destruct (Byte.eqb b NUL); [discriminate|].
  intros H. inversion H. reflexivity.
Qed.

Section BackwardGoto.

Context {P : Platform}.

Variable system : list byte -> M Z.
Variable fuel_goto : nat.
Variable argv : list (list byte).
Variable optind : nat.
Variable label : list byte.
Variable s : image.
Variables before body after : list (list byte).
Variables raw gotoline : list byte.

Hypothesis Hfit : fits_size_t s.
Hypothesis Hsplit :
  split_lines (data s) = before ++ raw :: body ++ gotoline :: after.
Hypothesis Hbefore : Forall (fun l => ~ is_label_line label l) before.
Hypothesis Hraw : is_label_line label raw.
Hypothesis Hpass : Forall (passes system) (before ++ body).
Hypothesis Hcmd : hd NUL gotoline <> COLON.
Hypothesis Hne : gotoline <> [].
Hypothesis Hsys : system (gotoline ++ [NUL]) = goto_exec fuel_goto argv.
Hypothesis Hparse :
  forall w, exists w', parse_options argv w = (0, optind, w').
Hypothesis Harg : nth_error argv optind = Some label.
Hypothesis Hfuel : len s < Z.of_nat fuel_goto.

(** A line that is not the empty line after a final newline starts inside
    the script. *)
Lemma line_start_lt (ls : list (list byte)) (l : list byte)
    (rest : list (list byte)) :
  split_lines (data s) = ls ++ l :: rest ->
  l <> [] \/ rest <> [] ->
  lines_size ls < len s.
Proof.
  intros H Hor.
  destruct (split_lines_prefix ls (data s) l rest H)
    as [pre [suf [E1 [E2 E3]]]].
  assert (Hsuf : suf <> []).
  { intros ->. simpl in E3. inversion E3; subst. tauto. }
  unfold len. rewrite E1, length_app.
  destruct suf; [contradiction|simpl length]. lia.
Qed.

Lemma split_at_position (r1 : list (list byte)) (l : list byte)
    (r2 : list (list byte)) :
  (before ++ raw :: body) ++ [gotoline] = r1 ++ l :: r2 ->
  split_lines (data s) = r1 ++ l :: (r2 ++ after).
Proof.
  intros H. rewrite Hsplit.
  change (r1 ++ l :: r2 ++ after) with (r1 ++ (l :: r2) ++ after).
  rewrite app_assoc, <- H, <- !app_assoc. reflexivity.
Qed.

(** An iteration on a line that lets the walk pass. *)
Lemma passing_step (st : state) (ls : list (list byte)) (l : list byte)
    (rest : list (list byte)) :
  script st = Some s ->
  split_lines (data s) = ls ++ l :: rest ->
  script_offset st = lines_size ls ->
  passes system l ->
  exists st1,
    process_script_step (script_exec_line system) st = Some (0, st1) /\
    script st1 = Some s /\
    script_offset st1 = lines_size (ls ++ [l]).
Proof.
  intros Hs Hsp Ho Hl.
  rewrite (process_script_step_at_line s st ls l rest _ Hs Hfit Hsp Ho).
  rewrite lines_size_app. simpl lines_size.
  unfold script_exec_line. rewrite char_at_line_buffer.
  destruct (Byte.eqb (hd NUL l) COLON) eqn:Ec.
  - eexists. split; [reflexivity|]. simpl. split; [exact Hs | lia].
  - destruct Hl as [Hl|Hl].
    + rewrite Hl in Ec. discriminate.
    + destruct (Hl (set_script_offset
                      (lines_size ls + Z.of_nat (length l) + 1) st))
        as [st1 [E [E1 E2]]].
      rewrite E. simpl negb. cbv iota. exists st1.
      split; [reflexivity|]. simpl in E1, E2. split; [congruence | lia].
Qed.

(** From any line up to and including the goto, the walk never ends. *)
Lemma backward_goto_loop (fuel : nat) :
  forall (st : state) (r1 : list (list byte)) (l : list byte)
         (r2 : list (list byte)),
    (before ++ raw :: body) ++ [gotoline] = r1 ++ l :: r2 ->
    script st = Some s ->
    script_offset st = lines_size r1 ->
    process_script_loop fuel (script_exec_line system)
      terminate_on_failure st = None.
Proof.
  induction fuel as [|fuel IH]; intros st r1 l r2 Hpos Hs Ho;
    [reflexivity|].
  pose proof (split_at_position r1 l r2 Hpos) as Hsp.
  simpl process_script_loop.
  destruct r2 as [|x r2].
  - (* the goto line *)
    apply app_inj_tail in Hpos. destruct Hpos as [Hr1 Hl]. subst r1 l.
    destruct (Hparse (world st)) as [w Hw].
    pose proof (goto_line_step system fuel_goto argv optind w label s st
                  _ gotoline _ Hs Hfit Hsp Ho Hcmd Hsys Hw Harg Hfuel)
      as Hstep.
    cbv zeta in Hstep.
    rewrite Hsplit, (find_label_first label raw _ Hraw before 0 Hbefore)
      in Hstep.
    rewrite Hstep. change (terminate_on_failure 0) with false. cbv iota.
    unfold more_lines. simpl script. rewrite Hs. simpl script_offset.
    destruct (body ++ [gotoline]) as [|l' r'] eqn:Eb.
    { destruct body; discriminate. }
    assert (Hpos' : (before ++ raw :: body) ++ [gotoline]
                    = (before ++ [raw]) ++ l' :: r').
    { rewrite <- !app_assoc. simpl. rewrite Eb. reflexivity. }
    assert (Hlt : lines_size (before ++ [raw]) < len s).
    { apply (line_start_lt (before ++ [raw]) l' (r' ++ after)
               (split_at_position _ _ _ Hpos')).
      destruct body as [|b0 body']; simpl in Eb; inversion Eb; subst.
      - left. exact Hne.
      - right. destruct body'; discriminate. }
    rewrite lines_size_app in Hlt. simpl lines_size in Hlt.
    match goal with
    | |- context [?a <? len s] =>
        replace (a <? len s) with true by (symmetry; apply Z.ltb_lt; lia)
    end.
    apply (IH _ (before ++ [raw]) l' r' Hpos'); [exact Hs|].
    simpl script_offset. rewrite lines_size_app. simpl lines_size. lia.
  - (* a line before the goto *)
    destruct (app_tail_split _ _ _ _ _ _ _ Hpos) as [q [Hq Hfront]].
    assert (Hl : passes system l).
    { assert (Hin : In l (before ++ raw :: body))
        by (rewrite Hfront; apply in_or_app; right; left; reflexivity).
      apply in_app_or in Hin. destruct Hin as [Hin|[Hin|Hin]].
      - apply (proj1 (Forall_forall _ _) Hpass). apply in_or_app. auto.
      - subst l. left.
        exact (label_line_starts_with_colon label raw Hraw).
      - apply (proj1 (Forall_forall _ _) Hpass). apply in_or_app. auto. }
    destruct (passing_step st r1 l _ Hs Hsp Ho Hl) as [st1 [E [Hs1 Ho1]]].
    rewrite E. change (terminate_on_failure 0) with false. cbv iota.
    unfold more_lines. rewrite Hs1.
    assert (Hpos' : (before ++ raw :: body) ++ [gotoline]
                    = (r1 ++ [l]) ++ x :: r2).
    { rewrite Hpos, <- app_assoc. reflexivity. }
    assert (Hlt : lines_size (r1 ++ [l]) < len s).
    { apply (line_start_lt (r1 ++ [l]) x (r2 ++ after)
               (split_at_position _ _ _ Hpos')).
      destruct q as [|q0 q'].
      - left. simpl in Hq. inversion Hq. exact Hne.
      - right. simpl in Hq. inversion Hq. destruct q'; discriminate. }
    replace (script_offset st1 <? len s) with true
      by (symmetry; apply Z.ltb_lt; lia).
    apply (IH st1 (r1 ++ [l]) x r2 Hpos' Hs1 Ho1).
Qed.

(** X11: a script in which a goto jumps back to a label above it, and in
    which every line before the goto lets the walk pass (label lines, and
    commands that succeed without moving the cursor), never returns from
    [script_exec]: however many iterations are allowed, the walk is still
    running. *)
Theorem backward_goto_never_returns (fuel : nat) (st : state) :
  script_exec system fuel s st = None.
Proof.
  unfold script_exec, process_script.
  destruct ((before ++ raw :: body) ++ [gotoline]) as [|l r2] eqn:E.
  { destruct before; discriminate. }
  rewrite (backward_goto_loop fuel _ [] l r2); auto.
Qed.

End BackwardGoto.

(* ------------------------------------------------------------------ *)
(** ** The further properties at work on concrete scripts *)

Lemma answers_cursor_preserving {P : Platform}
    (process_line : list byte -> M Z) (status_of : list byte -> Z) :
  answers_with process_line status_of -> cursor_preserving process_line.
Proof.
  intros Ha line st rc st' H.
  destruct (Ha line st) as [st1 [E [E1 E2]]].
  rewrite E in H. inversion H; subst. auto.
Qed.

Lemma demo_plain_system_answers :
  answers_with demo_plain_system demo_plain_status.
Proof.
  intros line st. unfold demo_plain_system, demo_plain_status.
  destruct (list_eq_dec Byte.byte_eq_dec (cstr line) (bytes "false"));
    exists st; auto.
Qed.

Lemma process_script_visits_in_order_witness :
  let s := demo_image demo_inner_script in
  let st := demo_state (Some s) 0 in
  exists tr rc st' rest,
    process_script_visits 40 (script_exec_line demo_plain_system)
      terminate_on_failure st = Some (tr, rc, st') /\
    map (fun l => l ++ [NUL]) (visited_lines (data s)) = map fst tr ++ rest /\
    (terminate_on_failure rc = false -> rest = []).
Proof.
  intros s st.
  destruct (process_script_visits 40 (script_exec_line demo_plain_system)
              terminate_on_failure st) as [[[tr rc] st']|] eqn:E;
    [|vm_compute in E; discriminate E].
  assert (Hcp : cursor_preserving (script_exec_line demo_plain_system)).
  { apply script_exec_line_cursor_preserving.
    exact (answers_cursor_preserving _ _ demo_plain_system_answers). }
  assert (Hfit : fits_size_t s) by (vm_compute; reflexivity).
  destruct (process_script_visits_in_order _ _ s st 40%nat tr rc st'
              Hcp eq_refl Hfit E) as [rest H].
  exists tr, rc, st', rest. split; [reflexivity | exact H].
Defined.

Lemma script_exec_first_failure_witness :
  let img := demo_image demo_inner_script in
  first_failure demo_plain_status (visited_lines (data img)) = 1 /\
  exists st',
    script_exec demo_plain_system 40 img (demo_state None 3)
    = Some (first_failure demo_plain_status (visited_lines (data img)), st')
    /\ script st' = None /\ script_offset st' = 3.
Proof.
  intros img. split; [vm_compute; reflexivity|].
  apply (script_exec_first_failure demo_plain_system demo_plain_status
           40 img (demo_state None 3)).
  - exact demo_plain_system_answers.
  - vm_compute. reflexivity.
  - vm_compute. reflexivity.
Defined.


Lemma goto_exec_failure_frame_witness :
  let s := demo_image demo_skip_script in
  let st := demo_state (Some s) 16 in
  exists rc st',
    goto_exec 64 [c_literal "goto"; c_literal "nowhere"] st = Some (rc, st') /\
    rc <> 0 /\ script st' = Some s /\ script_offset st' = 16.
Proof.
  intros s st.
  destruct (goto_exec 64 [c_literal "goto"; c_literal "nowhere"] st)
    as [[rc st']|] eqn:E; [|vm_compute in E; discriminate E].
  destruct (goto_exec_failure_frame _ _ _ _ _ E) as [H1 H2].
  assert (Hrc : rc <> 0).
  { vm_compute in E. inversion E. discriminate. }
  exists rc, st'. split; [reflexivity|]. split; [exact Hrc|].
  split; [exact H1 | exact (H2 Hrc)].
Defined.

Lemma script_load_first_seven_bytes_witness :
  let a := mk_image (bytes "#!ipxe" ++ [NL] ++ bytes "echo hi") None in
  let b := mk_image (bytes "#!ipxe" ++ [NL] ++ bytes "reboot now")
             (Some (foreign_image_type "elf")) in
  fst (script_load a) = fst (script_load b).
Proof.
  intros a b. apply (script_load_first_seven_bytes a b). reflexivity.
Defined.

Lemma script_exec_runs_magic_line_witness :
  let img := mk_image (bytes "#!ipxe" ++ [NL] ++ bytes "echo hi") None in
  let st := demo_state (Some (snd (script_load img))) 0 in
  exists line,
    line = line_of (data img) /\
    (firstn 6 line = bytes "#!ipxe" \/ firstn 6 line = bytes "#!gpxe") /\
    process_script_step (script_exec_line demo_plain_system) st
    = match demo_plain_system (line ++ [NUL])
              (set_script_offset (Z.of_nat (length line) + 1) st) with
      | None => None
      | Some (rc, st1) =>
          if negb (rc =? 0)
          then Some (rc, set_world
                           (printf (aborting_message (line ++ [NUL]))
                              (world st1)) st1)
          else Some (0, st1)
      end.
Proof.
  intros img st.
  apply (script_exec_runs_magic_line demo_plain_system img st).
  - vm_compute. reflexivity.
  - vm_compute. reflexivity.
  - reflexivity.
  - reflexivity.
Defined.

Lemma goto_redirects_walk_witness :
  let s := demo_image demo_skip_script in
  let st := demo_state (Some s) 7 in
  let system := demo_system (ret 0) in
  exists before raw rest st1,
    split_lines (data s) = before ++ raw :: rest /\
    Forall (fun l => ~ is_label_line (c_literal "end") l) before /\
    is_label_line (c_literal "end") raw /\
    process_script_step (script_exec_line system) st = Some (0, st1) /\
    script st1 = Some s /\
    script_offset st1 = lines_size (before ++ [raw]) /\
    (forall fuel,
        process_script_loop (S fuel) (script_exec_line system)
          terminate_on_failure st
        = if script_offset st1 <? len s
          then process_script_loop fuel (script_exec_line system)
                 terminate_on_failure st1
          else Some (0, st1)).
Proof.
  intros s st system.
  apply (goto_redirects_walk system 64
           [c_literal "goto"; c_literal "end"] 1 (world st)
           (c_literal "end") s st
           [bytes "#!ipxe"] (bytes "goto end")
           [bytes "false"; bytes ":end"; bytes "echo done"; []]).
  - reflexivity.
  - vm_compute. reflexivity.
  - vm_compute. reflexivity.
  - reflexivity.
  - vm_compute. discriminate.
  - reflexivity.
  - reflexivity.
  - reflexivity.
  - exists (bytes ":end"). split; [vm_compute; tauto | reflexivity].
  - vm_compute. reflexivity.
Defined.

Lemma goto_missing_label_aborts_witness :
  let s := demo_image demo_skip_script in
  let st := demo_state (Some s) 7 in
  let system :=
    fun line : list byte =>
      goto_exec 64 [c_literal "goto"; c_literal "nowhere"] in
  exists st1,
    process_script_loop 1 (script_exec_line system) terminate_on_failure st
    = Some (- ENOENT, st1) /\
    script st1 = Some s /\
    script_offset st1 = lines_size [bytes "#!ipxe"; bytes "goto end"] /\
    world st1 = [Printed (aborting_message (bytes "goto end" ++ [NUL]))].
Proof.
  intros s st system.
  apply (goto_missing_label_aborts system 64
           [c_literal "goto"; c_literal "nowhere"] 1 (world st)
           (c_literal "nowhere") s st
           [bytes "#!ipxe"] (bytes "goto end")
           [bytes "false"; bytes ":end"; bytes "echo done"; []] 0).
  - reflexivity.
  - vm_compute. reflexivity.
  - vm_compute. reflexivity.
  - reflexivity.
  - vm_compute. discriminate.
  - reflexivity.
  - reflexivity.
  - reflexivity.
  - intros l Hin. vm_compute in Hin.
    repeat (destruct Hin as [<-|Hin]; [vm_compute; discriminate|]).
    contradiction.
  - vm_compute. reflexivity.
Defined.

Lemma script_exec_final_newline_witness :
  let body := bytes "#!ipxe" ++ [NL] ++ bytes "fals" in
  let b := "e"%byte in
  exists rc st1 st2,
    script_exec demo_plain_system 40
      {| data := body ++ [b]; type := None |} (demo_state None 0)
    = Some (rc, st1) /\
    script_exec demo_plain_system 40
      {| data := (body ++ [b]) ++ [NL]; type := None |} (demo_state None 0)
    = Some (rc, st2).
Proof.
  intros body b.
  apply (script_exec_final_newline demo_plain_system demo_plain_status 40
           body b None None (demo_state None 0)).
  - exact demo_plain_system_answers.
  - discriminate.
  - vm_compute. reflexivity.
  - vm_compute. reflexivity.
Defined.

Lemma goto_find_label_exact_witness :
  let st := mk_state None 0 (Some (c_literal "end")) [] in
  goto_find_label (bytes ":end" ++ [NUL]) st = Some (0, st) /\
  goto_find_label (bytes ":end2" ++ [NUL]) st = Some (- ENOENT, st) /\
  goto_find_label (bytes ":End" ++ [NUL]) st = Some (- ENOENT, st).
Proof.
  intros st.
  assert (Hn : forall t : string,
             (forallb (fun c => negb (Byte.eqb c NUL)) (bytes t) = true) ->
             ~ In NUL (bytes t)).
  { intros t H Hin. rewrite forallb_forall in H.
    specialize (H NUL Hin). discriminate H. }
  split; [|split].
  - apply (goto_find_label_exact (bytes "end") (bytes ":end") st);
      try (apply Hn; reflexivity); reflexivity.
  - apply (goto_find_label_exact (bytes "end") (bytes ":end2") st);
      try (apply Hn; reflexivity); try reflexivity.
    vm_compute. discriminate.
  - apply (goto_find_label_exact (bytes "end") (bytes ":End") st);
      try (apply Hn; reflexivity); try reflexivity.
    vm_compute. discriminate.
Defined.

Lemma backward_goto_never_returns_witness :
  script_exec (demo_system (ret 0)) 1000 (demo_image demo_loop_script)
    (demo_state None 0)
  = None.
Proof.
  apply (backward_goto_never_returns (demo_system (ret 0)) 64
           [c_literal "goto"; c_literal "start"] 1 (c_literal "start")
           (demo_image demo_loop_script)
           [bytes "#!ipxe"] [bytes "echo hi"] [[]]
           (bytes ":start") (bytes "goto start")).
  - vm_compute. reflexivity.
  - vm_compute. reflexivity.
  - apply Forall_cons; [vm_compute; discriminate | apply Forall_nil].
  - reflexivity.
  - simpl app.
    apply Forall_cons; [right; intros st; exists st; auto|].
    apply Forall_cons; [right; intros st; exists st; auto|].
    apply Forall_nil.
  - vm_compute. discriminate.
  - discriminate.
  - reflexivity.
  - intros w. exists w. reflexivity.
  - reflexivity.
  - vm_compute. reflexivity.
Defined.
